(** * user-prefs: a per-user preference store over HTTP

    A shallow embedding of the Go service: the [Store] interface
    (store.go), its DynamoDB implementation (dynamo_store.go), the request
    handlers (handler.go), the response helpers and the authentication
    middleware (middleware.go), followed by the properties of the
    specification that concern them.

    Conventions.
    - A Go [map[string]string] is [GoMap]: [None] is the nil map, [Some m]
      an allocated map with contents [m : gmap string string].
    - A Go [error] is [option string]: [None] is nil.
    - The database is a value of type [Table] that the store operations
      take and return; the clock is a parameter [now] holding the string
      [time.Now().UTC().Format(time.RFC3339)].
    - [for k, v := range prefs] visits the entries of a map in an order
      that Go leaves unspecified; the loop of [Update] therefore takes the
      visiting order as a list, any permutation of the map's entries. *)

From Stdlib Require Import Ascii String.
From stdpp Require Import gmap strings list fin_maps pretty.

Open Scope string_scope.
Open Scope list_scope.

Set Warnings "-register-all".

(** ** Go values *)

Abbreviation GoMap := (option (gmap string string)).
Abbreviation error := (option string).

(** [len(m)], zero on the nil map. *)
Definition go_len (m : GoMap) : nat :=
  match m with
  | Some c => size c
  | None => 0
  end.

(** [v, ok := m[k]], the zero value and [false] on a missing key or on the
    nil map. *)
Definition go_index (m : GoMap) (k : string) : string * bool :=
  match m with
  | Some c =>
      match c !! k with
      | Some v => (v, true)
      | None => ("", false)
      end
  | None => ("", false)
  end.

(** The entries a [range] loop visits: none on the nil map. *)
Definition go_entries (m : GoMap) : gmap string string :=
  match m with
  | Some c => c
  | None => ∅
  end.

(** ** The DynamoDB service

    The service is not part of the repository.  Its four operations are
    modelled from the DynamoDB API reference, for the table the repository
    creates (one hash key [PK] of type S) and for the fragment of the
    update-expression language that the store issues: one [SET] or one
    [REMOVE] section, document paths of attribute names and [#]
    placeholders, values given by [:] placeholders.  Item-size limits,
    reserved words and transport failures are outside the model. *)

Module dynamodb.

Inductive AttributeValue :=
| AttributeValueMemberS (Value : string)
| AttributeValueMemberN (Value : string)
| AttributeValueMemberBOOL (Value : bool)
| AttributeValueMemberM (Value : gmap string AttributeValue).

Abbreviation Item := (gmap string AttributeValue).

(** The table: its items by the value of their hash key. *)
Abbreviation Table := (gmap string Item).

(** The hash key a [Key] map denotes: exactly the attribute [PK], of
    type S. *)
Definition key_of (Key : Item) : option string :=
  match Key !! "PK" with
  | Some (AttributeValueMemberS s) =>
      if decide (size Key = 1) then Some s else None
  | _ => None
  end.

Definition ValidationException (msg : string) : string :=
  "ValidationException: " +:+ msg.

(** *** GetItem *)

Record GetItemInput := { GetItemInput_Key : Item }.
Record GetItemOutput := { GetItemOutput_Item : option Item }.

Definition GetItem (t : Table) (input : GetItemInput)
  : GetItemOutput + string :=
  match key_of (GetItemInput_Key input) with
  | Some k => inl {| GetItemOutput_Item := t !! k |}
  | None => inr (ValidationException "The provided key element does not match the schema")
  end.

(** *** PutItem: the item replaces whatever the table holds under its key *)

Record PutItemInput := { PutItemInput_Item : Item }.

Definition PutItem (t : Table) (input : PutItemInput) : Table * error :=
  match PutItemInput_Item input !! "PK" with
  | Some (AttributeValueMemberS k) => (<[k := PutItemInput_Item input]> t, None)
  | _ => (t, Some (ValidationException "One of the required keys was not given a value"))
  end.

(** *** DeleteItem: succeeds whether or not the item exists *)

Record DeleteItemInput := { DeleteItemInput_Key : Item }.

Definition DeleteItem (t : Table) (input : DeleteItemInput) : Table * error :=
  match key_of (DeleteItemInput_Key input) with
  | Some k => (delete k t, None)
  | None => (t, Some (ValidationException "The provided key element does not match the schema"))
  end.

(** *** UpdateItem

    The text of an update expression, cut where the store's
    concatenations cut it: the section keywords, the separator [", "],
    an assignment [path = :value] and a bare path.  A path is the list
    of its dot-separated elements. *)

Inductive ExprPiece :=
| PSet
| PRemove
| PComma
| PAssign (path : list string) (value : string)
| PPath (path : list string).

Inductive Action :=
| ASet (path : list string) (value : string)
| ARemove (path : list string).

(** Clauses of a [SET] section: assignments separated by commas. *)
Fixpoint parse_set (ps : list ExprPiece) : option (list Action) :=
  match ps with
  | PAssign p v :: rest =>
      match rest with
      | [] => Some [ASet p v]
      | PComma :: rest' => cons (ASet p v) <$> parse_set rest'
      | _ => None
      end
  | _ => None
  end.

(** Clauses of a [REMOVE] section: paths separated by commas. *)
Fixpoint parse_remove (ps : list ExprPiece) : option (list Action) :=
  match ps with
  | PPath p :: rest =>
      match rest with
      | [] => Some [ARemove p]
      | PComma :: rest' => cons (ARemove p) <$> parse_remove rest'
      | _ => None
      end
  | _ => None
  end.

Definition parse_update (ps : list ExprPiece) : option (list Action) :=
  match ps with
  | PSet :: body => parse_set body
  | PRemove :: body => parse_remove body
  | _ => None
  end.

(** A path element that starts with [#] is a placeholder, replaced by
    its entry in ExpressionAttributeNames; the replacement is an
    attribute name and is not read again. *)
Definition resolve_name (names : gmap string string) (elem : string)
  : option string :=
  match elem with
  | String "#"%char _ => names !! elem
  | _ => Some elem
  end.

Definition resolve_path (names : gmap string string) (path : list string)
  : option (list string) :=
  mapM (resolve_name names) path.

(** An action with its names and value substituted. *)
Inductive Resolved :=
| RSet (path : list string) (value : AttributeValue)
| RRemove (path : list string).

Definition resolved_path (r : Resolved) : list string :=
  match r with
  | RSet p _ => p
  | RRemove p => p
  end.

Definition resolve_action (names : gmap string string)
    (values : Item) (a : Action) : option Resolved :=
  match a with
  | ASet p v =>
      p' ← resolve_path names p;
      v' ← values !! v;
      Some (RSet p' v')
  | ARemove p => RRemove <$> resolve_path names p
  end.

(** Two document paths overlap when one extends the other. *)
Fixpoint paths_overlap (p q : list string) : bool :=
  match p, q with
  | a :: p', b :: q' => if decide (a = b) then paths_overlap p' q' else false
  | _, _ => true
  end.

Fixpoint no_overlap (ps : list (list string)) : bool :=
  match ps with
  | [] => true
  | p :: rest => forallb (fun q => negb (paths_overlap p q)) rest && no_overlap rest
  end.

(** Writing at a document path: every element but the last must name
    an existing map. *)
Fixpoint set_path (path : list string) (v : AttributeValue) (m : Item)
  : option Item :=
  match path with
  | [] => None
  | [a] => Some (<[a := v]> m)
  | a :: rest =>
      match m !! a with
      | Some (AttributeValueMemberM inner) =>
          inner' ← set_path rest v inner;
          Some (<[a := AttributeValueMemberM inner']> m)
      | _ => None
      end
  end.

(** Removing at a document path: a missing last element is not an
    error, a missing or non-map parent is. *)
Fixpoint remove_path (path : list string) (m : Item) : option Item :=
  match path with
  | [] => None
  | [a] => Some (delete a m)
  | a :: rest =>
      match m !! a with
      | Some (AttributeValueMemberM inner) =>
          inner' ← remove_path rest inner;
          Some (<[a := AttributeValueMemberM inner']> m)
      | _ => None
      end
  end.

Definition apply_action (item : option Item) (r : Resolved) : option Item :=
  m ← item;
  match r with
  | RSet p v => set_path p v m
  | RRemove p => remove_path p m
  end.

Inductive ReturnValue := ReturnValueNone | ReturnValueAllNew.

Record UpdateItemInput := {
  UpdateItemInput_Key : Item;
  UpdateExpression : list ExprPiece;
  ExpressionAttributeNames : gmap string string;
  ExpressionAttributeValues : Item;
  ReturnValues : ReturnValue
}.

Record UpdateItemOutput := { Attributes : option Item }.

(** The item an update starts from: the stored one, or a new item that
    holds the key alone. *)
Definition base_item (t : Table) (k : string) : Item :=
  match t !! k with
  | Some item => item
  | None => {[ "PK" := AttributeValueMemberS k ]}
  end.

Definition UpdateItem (t : Table) (input : UpdateItemInput)
  : Table * (UpdateItemOutput + string) :=
  match key_of (UpdateItemInput_Key input) with
  | None => (t, inr (ValidationException "The provided key element does not match the schema"))
  | Some k =>
      match parse_update (UpdateExpression input) with
      | None => (t, inr (ValidationException "Invalid UpdateExpression: Syntax error"))
      | Some actions =>
          match mapM (resolve_action (ExpressionAttributeNames input)
                        (ExpressionAttributeValues input)) actions with
          | None => (t, inr (ValidationException "Invalid UpdateExpression: An expression attribute name or value used in expression is not defined"))
          | Some rs =>
              if no_overlap (resolved_path <$> rs) then
                match foldl apply_action (Some (base_item t k)) rs with
                | None => (t, inr (ValidationException "The document path provided in the update expression is invalid for update"))
                | Some item' =>
                    (<[k := item']> t,
                     inl {| Attributes :=
                              match ReturnValues input with
                              | ReturnValueAllNew => Some item'
                              | ReturnValueNone => None
                              end |})
                end
              else (t, inr (ValidationException "Invalid UpdateExpression: Two document paths overlap with each other"))
          end
      end
  end.

End dynamodb.

(** ** dynamo_store.go: the store over DynamoDB *)

Module DynamoStore.
Import dynamodb.

Definition pk (userID : string) : string := "USER#" +:+ userID.

Definition member_S (v : AttributeValue) : option string :=
  match v with
  | AttributeValueMemberS s => Some s
  | _ => None
  end.

(** [unmarshalPrefs] extracts the preferences map from an item; members
    that are not strings are skipped.  The argument is [None] for a nil
    map of attributes. *)
Definition unmarshalPrefs (item : option Item) : GoMap * error :=
  match item ≫= (.!! "preferences") with
  | None => (None, None)
  | Some (AttributeValueMemberM prefsMap) => (Some (omap member_S prefsMap), None)
  | Some _ => (None, Some "preferences attribute is not a map")
  end.

Definition user_key (userID : string) : Item :=
  {[ "PK" := AttributeValueMemberS (pk userID) ]}.

Definition GetAll (t : Table) (userID : string) : GoMap * error :=
  match GetItem t {| GetItemInput_Key := user_key userID |} with
  | inr err => (None, Some ("GetItem: " +:+ err))
  | inl out =>
      match GetItemOutput_Item out with
      | None => (None, None)
      | Some item => unmarshalPrefs (Some item)
      end
  end.

Definition Get (t : Table) (userID key : string) : string * bool * error :=
  match GetAll t userID with
  | (_, Some err) => ("", false, Some err)
  | (prefs, None) => (go_index prefs key, None)
  end.

Definition ReplaceAll_item (now userID : string) (prefs : GoMap) : Item :=
  {[ "PK" := AttributeValueMemberS (pk userID);
     "preferences" := AttributeValueMemberM (AttributeValueMemberS <$> go_entries prefs);
     "updatedAt" := AttributeValueMemberS now;
     "createdAt" := AttributeValueMemberS now ]}.

Definition ReplaceAll (t : Table) (now userID : string) (prefs : GoMap)
  : Table * error :=
  match PutItem t {| PutItemInput_Item := ReplaceAll_item now userID prefs |} with
  | (t', Some err) => (t', Some ("PutItem: " +:+ err))
  | (t', None) => (t', None)
  end.

(** The variables of the loop that builds the update expression. *)
Record UpdateLoop := {
  exprNames : gmap string string;
  exprValues : Item;
  updateExpr : list ExprPiece;
  i : nat
}.

Definition Update_loop_body (st : UpdateLoop) (kv : string * string)
  : UpdateLoop :=
  let nameKey := "#k" +:+ pretty (i st) in
  let valKey := ":v" +:+ pretty (i st) in
  {| exprNames := <[nameKey := kv.1]> (exprNames st);
     exprValues := <[valKey := AttributeValueMemberS kv.2]> (exprValues st);
     updateExpr :=
       updateExpr st
       ++ (if decide (0 < i st) then [PComma] else [])
       ++ [PAssign ["preferences"; nameKey] valKey];
     i := S (i st) |}.

Definition Update_loop (order : list (string * string)) : UpdateLoop :=
  foldl Update_loop_body
    {| exprNames := ∅; exprValues := ∅; updateExpr := [PSet]; i := 0 |}
    order.

(** The request of [Update]:
    [SET preferences.#k0 = :v0, ..., updatedAt = :now]. *)
Definition Update_input (now userID : string) (order : list (string * string))
  : UpdateItemInput :=
  let st := Update_loop order in
  {| UpdateItemInput_Key := user_key userID;
     UpdateExpression := updateExpr st ++ [PComma; PAssign ["updatedAt"] ":now"];
     ExpressionAttributeNames := exprNames st;
     ExpressionAttributeValues := <[":now" := AttributeValueMemberS now]> (exprValues st);
     ReturnValues := ReturnValueAllNew |}.

(** [Update] with the entries of [prefs] visited in the given order. *)
Definition UpdateInOrder (t : Table) (now userID : string)
    (order : list (string * string)) : Table * (GoMap * error) :=
  match UpdateItem t (Update_input now userID order) with
  | (t', inr err) => (t', (None, Some ("UpdateItem: " +:+ err)))
  | (t', inl out) => (t', unmarshalPrefs (Attributes out))
  end.

Definition Update (t : Table) (now userID : string) (prefs : GoMap)
  : Table * (GoMap * error) :=
  UpdateInOrder t now userID (map_to_list (go_entries prefs)).

Definition DeleteAll (t : Table) (userID : string) : Table * error :=
  match DeleteItem t {| DeleteItemInput_Key := user_key userID |} with
  | (t', Some err) => (t', Some ("DeleteItem: " +:+ err))
  | (t', None) => (t', None)
  end.

(** The request of [Delete]: [REMOVE preferences.#key]. *)
Definition Delete_input (userID key : string) : UpdateItemInput :=
  {| UpdateItemInput_Key := user_key userID;
     UpdateExpression := [PRemove; PPath ["preferences"; "#key"]];
     ExpressionAttributeNames := {[ "#key" := key ]};
     ExpressionAttributeValues := ∅;
     ReturnValues := ReturnValueNone |}.

Definition Delete (t : Table) (userID key : string) : Table * error :=
  match UpdateItem t (Delete_input userID key) with
  | (t', inr err) => (t', Some ("UpdateItem (REMOVE): " +:+ err))
  | (t', inl _) => (t', None)
  end.

End DynamoStore.


(** ** store.go: the persistence interface

    [Store_GetAll] and [Store_Get] read; the other operations return the
    state they leave.  [now] stands for the clock an implementation may
    consult. *)

Class Store (S : Type) := {
  Store_GetAll : S → string → GoMap * error;
  Store_Get : S → string → string → string * bool * error;
  Store_ReplaceAll : S → string → string → GoMap → S * error;
  Store_Update : S → string → string → GoMap → S * (GoMap * error);
  Store_DeleteAll : S → string → S * error;
  Store_Delete : S → string → string → S * error
}.

#[export] Instance DynamoStore_Store : Store dynamodb.Table := {
  Store_GetAll := DynamoStore.GetAll;
  Store_Get := DynamoStore.Get;
  Store_ReplaceAll := DynamoStore.ReplaceAll;
  Store_Update := DynamoStore.Update;
  Store_DeleteAll := DynamoStore.DeleteAll;
  Store_Delete := DynamoStore.Delete
}.

(** ** handler_test.go: the in-memory store of the handler tests *)

Module mockStore.

Record mockStore := {
  prefs : gmap string GoMap;
  err : error
}.

Definition newMockStore : mockStore := {| prefs := ∅; err := None |}.

(** [m.prefs[userID]]: the nil map when the user has no entry. *)
Definition prefs_at (m : mockStore) (userID : string) : GoMap :=
  match prefs m !! userID with
  | Some p => p
  | None => None
  end.

Definition GetAll (m : mockStore) (userID : string) : GoMap * error :=
  match err m with
  | Some e => (None, Some e)
  | None => (prefs_at m userID, None)
  end.

Definition Get (m : mockStore) (userID key : string) : string * bool * error :=
  match err m with
  | Some e => ("", false, Some e)
  | None =>
      match prefs_at m userID with
      | None => ("", false, None)
      | Some p => (go_index (Some p) key, None)
      end
  end.

Definition ReplaceAll (m : mockStore) (now userID : string) (p : GoMap)
  : mockStore * error :=
  match err m with
  | Some e => (m, Some e)
  | None => ({| prefs := <[userID := p]> (prefs m); err := err m |}, None)
  end.

Definition Update (m : mockStore) (now userID : string) (p : GoMap)
  : mockStore * (GoMap * error) :=
  match err m with
  | Some e => (m, (None, Some e))
  | None =>
      let existing := Some (go_entries p ∪ go_entries (prefs_at m userID)) in
      ({| prefs := <[userID := existing]> (prefs m); err := err m |},
       (existing, None))
  end.

Definition DeleteAll (m : mockStore) (userID : string) : mockStore * error :=
  match err m with
  | Some e => (m, Some e)
  | None => ({| prefs := delete userID (prefs m); err := err m |}, None)
  end.

Definition Delete (m : mockStore) (userID key : string) : mockStore * error :=
  match err m with
  | Some e => (m, Some e)
  | None =>
      match prefs_at m userID with
      | Some p =>
          ({| prefs := <[userID := Some (delete key p)]> (prefs m); err := err m |},
           None)
      | None => (m, None)
      end
  end.

End mockStore.

#[export] Instance mockStore_Store : Store mockStore.mockStore := {
  Store_GetAll := mockStore.GetAll;
  Store_Get := mockStore.Get;
  Store_ReplaceAll := mockStore.ReplaceAll;
  Store_Update := mockStore.Update;
  Store_DeleteAll := mockStore.DeleteAll;
  Store_Delete := mockStore.Delete
}.

(** ** encoding/json, as the handlers and the token parser use it

    A request body is the first JSON value of the stream, [None] when the
    stream does not start with one (empty body, syntax error); what
    follows that value is not read by [Decode].  Numbers are modelled by
    integers: the handlers only look at the kind of a value, the token
    validation only compares a time claim with the clock. *)

Module json.

Inductive Value :=
| JNull
| JBool (b : bool)
| JNumber (n : Z)
| JString (s : string)
| JArray (elems : list Value)
| JObject (members : list (string * Value)).

(** One member of an object decoded into a [map[string]string]: a string
    is stored, [null] leaves the fresh element at its zero value, any
    other kind is an UnmarshalTypeError; a repeated key overwrites. *)
Definition decode_member (acc : gmap string string + string)
    (kv : string * Value) : gmap string string + string :=
  match acc with
  | inr e => inr e
  | inl m =>
      match kv.2 with
      | JString s => inl (<[kv.1 := s]> m)
      | JNull => inl (<[kv.1 := ""]> m)
      | _ => inr "json: cannot unmarshal value into Go value of type string"
      end
  end.

(** [json.NewDecoder(body).Decode(&prefs)] for [var prefs
    map[string]string]: the decoded map, or the error; [null] leaves
    [prefs] nil.  The value left in [prefs] when an error is returned is
    not modelled, the handlers do not read it. *)
Definition Decode (body : option Value) : GoMap + string :=
  match body with
  | None => inr "json: syntax error"
  | Some JNull => inl None
  | Some (JObject members) =>
      match foldl decode_member (inl ∅) members with
      | inl m => inl (Some m)
      | inr e => inr e
      end
  | Some _ => inr "json: cannot unmarshal value into Go value of type map[string]string"
  end.

End json.

(** ** middleware.go: the claims carried by the request context *)

Record Claims := { Subject : string }.

(** ** net/http: what the handlers read of a request and write of a
    response *)

Record Request := {
  URL_Path : string;
  Header_Authorization : string;
  PathValues : gmap string string;
  Context_claims : option Claims;
  Body : option json.Value
}.

(** [r.PathValue(name)]: the empty string when the pattern has no such
    wildcard. *)
Definition PathValue (r : Request) (name : string) : string :=
  match PathValues r !! name with
  | Some v => v
  | None => ""
  end.

Definition ClaimsFromContext (r : Request) : option Claims := Context_claims r.

Definition WithContext_claims (r : Request) (c : Claims) : Request :=
  {| URL_Path := URL_Path r;
     Header_Authorization := Header_Authorization r;
     PathValues := PathValues r;
     Context_claims := Some c;
     Body := Body r |}.

Definition StatusOK : nat := 200.
Definition StatusNoContent : nat := 204.
Definition StatusBadRequest : nat := 400.
Definition StatusUnauthorized : nat := 401.
Definition StatusForbidden : nat := 403.
Definition StatusNotFound : nat := 404.
Definition StatusInternalServerError : nat := 500.

(** ** models.go and response.go *)

Inductive Payload :=
| APIError (Error : string) (Code : nat)
| PreferencesResponse (UserID : string) (Preferences : GoMap)
| SinglePrefResponse (Key Value : string)
| NoPayload.

Record Response := {
  StatusCode : nat;
  ResponseBody : Payload
}.

Definition writeJSON (status : nat) (v : Payload) : Response :=
  {| StatusCode := status; ResponseBody := v |}.

Definition writeError (status : nat) (msg : string) : Response :=
  writeJSON status (APIError msg status).

(** [w.WriteHeader(status)] with nothing written after it. *)
Definition WriteHeader (status : nat) : Response :=
  {| StatusCode := status; ResponseBody := NoPayload |}.

(** ** handler.go: the preference handlers

    A handler runs against a store [s] and yields the response it writes,
    the store it leaves and the store operations it invoked, in order.
    Log lines are not modelled. *)

Inductive StoreCall :=
| CallGetAll (userID : string)
| CallGet (userID key : string)
| CallReplaceAll (userID : string) (prefs : GoMap)
| CallUpdate (userID : string) (prefs : GoMap)
| CallDeleteAll (userID : string)
| CallDelete (userID key : string).

Record Outcome (S : Type) := {
  response : Response;
  store : S;
  calls : list StoreCall
}.

Arguments response {S} _.
Arguments store {S} _.
Arguments calls {S} _.

(** A handler that returns without touching the store. *)
Definition reply {S : Type} (s : S) (resp : Response) : Outcome S :=
  {| response := resp; store := s; calls := [] |}.

Module PreferencesHandler.

(** [authorize] checks that the JWT subject matches the requested
    userId: the response written on failure, or the user id. *)
Definition authorize (r : Request) : Response + string :=
  let userID := PathValue r "userId" in
  if decide (userID = "") then
    inl (writeError StatusBadRequest "missing userId")
  else
    match ClaimsFromContext r with
    | None => inl (writeError StatusUnauthorized "missing claims")
    | Some claims =>
        if decide (Subject claims ≠ userID) then
          inl (writeError StatusForbidden "access denied")
        else inr userID
    end.

Section handlers.
Context {S : Type} `{Store S}.

Definition GetAll (s : S) (r : Request) : Outcome S :=
  match authorize r with
  | inl resp => reply s resp
  | inr userID =>
      match Store_GetAll s userID with
      | (_, Some _) =>
          {| response := writeError StatusInternalServerError "failed to retrieve preferences";
             store := s; calls := [CallGetAll userID] |}
      | (prefs, None) =>
          let prefs :=
            match prefs with
            | None => Some ∅
            | Some p => Some p
            end in
          {| response := writeJSON StatusOK (PreferencesResponse userID prefs);
             store := s; calls := [CallGetAll userID] |}
      end
  end.

Definition GetOne (s : S) (r : Request) : Outcome S :=
  match authorize r with
  | inl resp => reply s resp
  | inr userID =>
      let key := PathValue r "key" in
      if decide (key = "") then reply s (writeError StatusBadRequest "missing key")
      else
        match Store_Get s userID key with
        | (_, _, Some _) =>
            {| response := writeError StatusInternalServerError "failed to retrieve preference";
               store := s; calls := [CallGet userID key] |}
        | (value, found, None) =>
            if negb found then
              {| response := writeError StatusNotFound "preference not found";
                 store := s; calls := [CallGet userID key] |}
            else
              {| response := writeJSON StatusOK (SinglePrefResponse key value);
                 store := s; calls := [CallGet userID key] |}
        end
  end.

Definition ReplaceAll (s : S) (now : string) (r : Request) : Outcome S :=
  match authorize r with
  | inl resp => reply s resp
  | inr userID =>
      match json.Decode (Body r) with
      | inr _ => reply s (writeError StatusBadRequest "invalid JSON body")
      | inl prefs =>
          match Store_ReplaceAll s now userID prefs with
          | (s', Some _) =>
              {| response := writeError StatusInternalServerError "failed to save preferences";
                 store := s'; calls := [CallReplaceAll userID prefs] |}
          | (s', None) =>
              {| response := writeJSON StatusOK (PreferencesResponse userID prefs);
                 store := s'; calls := [CallReplaceAll userID prefs] |}
          end
      end
  end.

Definition PatchPrefs (s : S) (now : string) (r : Request) : Outcome S :=
  match authorize r with
  | inl resp => reply s resp
  | inr userID =>
      match json.Decode (Body r) with
      | inr _ => reply s (writeError StatusBadRequest "invalid JSON body")
      | inl prefs =>
          if decide (go_len prefs = 0) then
            reply s (writeError StatusBadRequest "empty preferences")
          else
            match Store_Update s now userID prefs with
            | (s', (_, Some _)) =>
                {| response := writeError StatusInternalServerError "failed to update preferences";
                   store := s'; calls := [CallUpdate userID prefs] |}
            | (s', (merged, None)) =>
                {| response := writeJSON StatusOK (PreferencesResponse userID merged);
                   store := s'; calls := [CallUpdate userID prefs] |}
            end
      end
  end.

Definition DeleteAll (s : S) (r : Request) : Outcome S :=
  match authorize r with
  | inl resp => reply s resp
  | inr userID =>
      match Store_DeleteAll s userID with
      | (s', Some _) =>
          {| response := writeError StatusInternalServerError "failed to delete preferences";
             store := s'; calls := [CallDeleteAll userID] |}
      | (s', None) =>
          {| response := WriteHeader StatusNoContent;
             store := s'; calls := [CallDeleteAll userID] |}
      end
  end.

Definition DeleteOne (s : S) (r : Request) : Outcome S :=
  match authorize r with
  | inl resp => reply s resp
  | inr userID =>
      let key := PathValue r "key" in
      if decide (key = "") then reply s (writeError StatusBadRequest "missing key")
      else
        match Store_Delete s userID key with
        | (s', Some _) =>
            {| response := writeError StatusInternalServerError "failed to delete preference";
               store := s'; calls := [CallDelete userID key] |}
        | (s', None) =>
            {| response := WriteHeader StatusNoContent;
               store := s'; calls := [CallDelete userID key] |}
        end
  end.

End handlers.

(** The six handlers the router registers. *)
Inductive Handler :=
| HGetAll | HGetOne | HReplaceAll | HPatchPrefs | HDeleteAll | HDeleteOne.

Definition serve {S : Type} `{Store S} (h : Handler) (s : S) (now : string)
    (r : Request) : Outcome S :=
  match h with
  | HGetAll => GetAll s r
  | HGetOne => GetOne s r
  | HReplaceAll => ReplaceAll s now r
  | HPatchPrefs => PatchPrefs s now r
  | HDeleteAll => DeleteAll s r
  | HDeleteOne => DeleteOne s r
  end.

End PreferencesHandler.

(** ** github.com/golang-jwt/jwt/v5, as the middleware uses it

    The library is not part of the repository.  Its parser is modelled
    from its documentation: a token string is decoded, its algorithm is
    checked against the valid methods, its signature is verified with the
    key the key function returns, and its registered claims are validated
    against the clock and the parser options.  Splitting and decoding the
    three segments of a token and computing its signature are the two
    primitives of the library the model leaves open. *)

Module jwt.

Record Token := {
  Header_alg : string;
  MapClaims : gmap string json.Value;
  Valid : bool
}.

Class Primitives := {
  (** The header and the claims of a well-formed token string, with
      [Valid] unset; [None] for a string that is not three base64url
      segments holding two JSON objects and a registered algorithm. *)
  ParseUnverified : string → option Token;
  (** [Verify alg key tokenStr]: the signature segment of [tokenStr] is
      the signature of its first two segments under [alg] and [key]. *)
  Verify : string → string → string → bool
}.

Inductive ParserOption :=
| WithValidMethods (methods : list string)
| WithIssuer (iss : string).

Record Parser := {
  validMethods : option (list string);
  expectedIss : string
}.

Definition apply_option (p : Parser) (o : ParserOption) : Parser :=
  match o with
  | WithValidMethods ms => {| validMethods := Some ms; expectedIss := expectedIss p |}
  | WithIssuer iss => {| validMethods := validMethods p; expectedIss := iss |}
  end.

Definition NewParser (opts : list ParserOption) : Parser :=
  foldl apply_option {| validMethods := None; expectedIss := "" |} opts.

(** A time claim, in seconds: absent or zero is no date, a value that is
    not a number is an error. *)
Definition parseNumericDate (claims : gmap string json.Value) (key : string)
  : option Z + string :=
  match claims !! key with
  | None => inl None
  | Some (json.JNumber n) => if decide (n = 0%Z) then inl None else inl (Some n)
  | Some _ => inr (key +:+ " is invalid")
  end.

(** A string claim: absent is the empty string, a value that is not a
    string is an error. *)
Definition parseString (claims : gmap string json.Value) (key : string)
  : string + string :=
  match claims !! key with
  | None => inl ""
  | Some (json.JString s) => inl s
  | Some _ => inr (key +:+ " is invalid")
  end.

Definition GetExpirationTime (claims : gmap string json.Value) : option Z + string :=
  parseNumericDate claims "exp".

Definition GetNotBefore (claims : gmap string json.Value) : option Z + string :=
  parseNumericDate claims "nbf".

Definition GetIssuer (claims : gmap string json.Value) : string + string :=
  parseString claims "iss".

Definition GetSubject (claims : gmap string json.Value) : string + string :=
  parseString claims "sub".

(** [exp] is optional; when present the clock must be before it. *)
Definition verifyExpiresAt (claims : gmap string json.Value) (now : Z) : bool :=
  match GetExpirationTime claims with
  | inr _ => false
  | inl None => true
  | inl (Some exp) => bool_decide (now < exp)%Z
  end.

(** [nbf] is optional; when present the clock must not be before it. *)
Definition verifyNotBefore (claims : gmap string json.Value) (now : Z) : bool :=
  match GetNotBefore claims with
  | inr _ => false
  | inl None => true
  | inl (Some nbf) => bool_decide (nbf ≤ now)%Z
  end.

(** With an expected issuer the [iss] claim is required and must equal
    it. *)
Definition verifyIssuer (claims : gmap string json.Value) (cmp : string) : bool :=
  match GetIssuer claims with
  | inr _ => false
  | inl iss => if decide (iss = "") then false else bool_decide (iss = cmp)
  end.

Definition Validate (p : Parser) (claims : gmap string json.Value) (now : Z) : bool :=
  verifyExpiresAt claims now
  && verifyNotBefore claims now
  && (if decide (expectedIss p = "") then true else verifyIssuer claims (expectedIss p)).

Definition method_valid (p : Parser) (alg : string) : bool :=
  match validMethods p with
  | None => true
  | Some ms => bool_decide (alg ∈ ms)
  end.

(** [jwt.Parse(tokenStr, keyFunc, opts...)] at clock [now]: the token
    with [Valid] set, or the error. *)
Definition Parse `{Primitives} (tokenStr : string)
    (keyFunc : Token → string + string) (opts : list ParserOption) (now : Z)
  : Token + string :=
  let p := NewParser opts in
  match ParseUnverified tokenStr with
  | None => inr "token is malformed"
  | Some token =>
      if negb (method_valid p (Header_alg token)) then
        inr "token signature is invalid: signing method is invalid"
      else
        match keyFunc token with
        | inr e => inr ("token is unverifiable: " +:+ e)
        | inl key =>
            if negb (Verify (Header_alg token) key tokenStr) then
              inr "token signature is invalid"
            else if negb (Validate p (MapClaims token) now) then
              inr "token has invalid claims"
            else
              inl {| Header_alg := Header_alg token;
                     MapClaims := MapClaims token;
                     Valid := true |}
        end
  end.

End jwt.

(** ** strings: the two functions the middleware calls *)

Module strings.

(** The text before and after the first occurrence of a character. *)
Fixpoint cut (sep : ascii) (s : string) : option (string * string) :=
  match s with
  | EmptyString => None
  | String c rest =>
      if decide (c = sep) then Some (EmptyString, rest)
      else
        match cut sep rest with
        | Some (before, after) => Some (String c before, after)
        | None => None
        end
  end.

(** [strings.SplitN(s, " ", 2)]. *)
Definition SplitN_space_2 (s : string) : list string :=
  match cut " "%char s with
  | Some (before, after) => [before; after]
  | None => [s]
  end.

Definition lower_ascii (c : ascii) : ascii :=
  let n := nat_of_ascii c in
  if (65 <=? n)%nat && (n <=? 90)%nat then ascii_of_nat (n + 32) else c.

Fixpoint lower (s : string) : string :=
  match s with
  | EmptyString => EmptyString
  | String c rest => String (lower_ascii c) (lower rest)
  end.

(** [strings.EqualFold] on the letters of ASCII.  Unicode simple folding
    relates two more characters to ASCII letters, the Kelvin sign to [k]
    and the long s to [s]; neither letter occurs in the word the
    middleware compares with. *)
Definition EqualFold (s t : string) : bool :=
  bool_decide (lower s = lower t).

End strings.

(** ** middleware.go: JWTAuth

    The middleware either writes a response itself or calls the wrapped
    handler with a request. *)

Inductive Served :=
| Respond (resp : Response)
| Next (r : Request).

(** [JWTAuth] validates Bearer tokens and stores claims in context;
    requests to /healthz skip authentication. *)
Definition JWTAuth `{jwt.Primitives} (secret issuer : string) (now : Z)
    (r : Request) : Served :=
  if decide (URL_Path r = "/healthz") then Next r
  else
    let authHeader := Header_Authorization r in
    if decide (authHeader = "") then
      Respond (writeError StatusUnauthorized "missing authorization header")
    else
      match strings.SplitN_space_2 authHeader with
      | [scheme; tokenStr] =>
          if negb (strings.EqualFold scheme "Bearer") then
            Respond (writeError StatusUnauthorized "invalid authorization header format")
          else
            let parserOpts : list jwt.ParserOption :=
              ([jwt.WithValidMethods ["HS256"]]
               ++ (if decide (issuer ≠ "") then [jwt.WithIssuer issuer] else []))%list in
            match jwt.Parse tokenStr (fun _ => inl secret) parserOpts now with
            | inr _ => Respond (writeError StatusUnauthorized "invalid or expired token")
            | inl token =>
                if negb (jwt.Valid token) then
                  Respond (writeError StatusUnauthorized "invalid or expired token")
                else
                  match jwt.GetSubject (jwt.MapClaims token) with
                  | inr _ => Respond (writeError StatusUnauthorized "token missing subject claim")
                  | inl sub =>
                      if decide (sub = "") then
                        Respond (writeError StatusUnauthorized "token missing subject claim")
                      else Next (WithContext_claims r {| Subject := sub |})
                  end
            end
      | _ => Respond (writeError StatusUnauthorized "invalid authorization header format")
      end.

(** ** Notions used to state the properties *)

(** *** Histories of store operations

    A write of the store, and the table a sequence of writes leaves. *)

Inductive StoreOp :=
| OpReplaceAll (now userID : string) (prefs : GoMap)
| OpUpdate (now userID : string) (order : list (string * string))
| OpDeleteAll (userID : string)
| OpDelete (userID key : string).

Definition op_user (op : StoreOp) : string :=
  match op with
  | OpReplaceAll _ U _ => U
  | OpUpdate _ U _ => U
  | OpDeleteAll U => U
  | OpDelete U _ => U
  end.

Definition apply_op (t : dynamodb.Table) (op : StoreOp) : dynamodb.Table :=
  match op with
  | OpReplaceAll now U M => (DynamoStore.ReplaceAll t now U M).1
  | OpUpdate now U order => (DynamoStore.UpdateInOrder t now U order).1
  | OpDeleteAll U => (DynamoStore.DeleteAll t U).1
  | OpDelete U k => (DynamoStore.Delete t U k).1
  end.

Definition run (ops : list StoreOp) (t : dynamodb.Table) : dynamodb.Table :=
  foldl apply_op t ops.

(** *** The request of Update, clause by clause *)

(** The [j]-th assignment of the expression, as text. *)
Definition raw_clause (j : nat) : dynamodb.Action :=
  dynamodb.ASet ["preferences"; "#k" +:+ pretty j] (":v" +:+ pretty j).

(** The same assignment once its placeholders are substituted. *)
Definition set_pref (kv : string * string) : dynamodb.Resolved :=
  dynamodb.RSet ["preferences"; kv.1] (dynamodb.AttributeValueMemberS kv.2).

(** What the loop of [Update] has built after visiting [kvs]. *)
Record loop_inv (kvs : list (string * string)) (st : DynamoStore.UpdateLoop)
    : Prop := {
  inv_i : DynamoStore.i st = length kvs;
  inv_names : ∀ j kv, kvs !! j = Some kv →
    DynamoStore.exprNames st !! ("#k" +:+ pretty j) = Some kv.1;
  inv_values : ∀ j kv, kvs !! j = Some kv →
    DynamoStore.exprValues st !! (":v" +:+ pretty j)
    = Some (dynamodb.AttributeValueMemberS kv.2);
  inv_expr : ∃ body, DynamoStore.updateExpr st = dynamodb.PSet :: body ∧
    if decide (kvs = []) then body = []
    else dynamodb.parse_set body = Some (imap (λ j _, raw_clause j) kvs)
}.

Definition is_map (v : option dynamodb.AttributeValue) : Prop :=
  ∃ m, v = Some (dynamodb.AttributeValueMemberM m).

(** The item [Update] leaves when it merges [P] into an item whose
    preferences attribute holds [m0]. *)
Definition updated_item (now : string) (P : gmap string string)
    (item m0 : dynamodb.Item) : dynamodb.Item :=
  <["updatedAt" := dynamodb.AttributeValueMemberS now]>
    (<["preferences" :=
         dynamodb.AttributeValueMemberM
           ((dynamodb.AttributeValueMemberS <$> P) ∪ m0)]> item).

(** *** Request bodies *)

(** The specification's wording: a JSON object mapping strings to
    strings. *)
Definition is_string_object (body : option json.Value) : bool :=
  match body with
  | Some (json.JObject members) =>
      forallb (λ kv : string * json.Value,
                 match kv.2 with json.JString _ => true | _ => false end)
              members
  | _ => false
  end.

(** What the decoder accepts as a member of the mapping, and as a body. *)
Definition member_ok (kv : string * json.Value) : bool :=
  match kv.2 with
  | json.JString _ | json.JNull => true
  | _ => false
  end.

Definition body_ok (body : option json.Value) : bool :=
  match body with
  | Some json.JNull => true
  | Some (json.JObject members) => forallb member_ok members
  | _ => false
  end.

(** *** Credentials

    What the specification asks of a bearer token: it verifies under
    HS256 with the configured secret, it is not expired at the time of the
    request, it has a non-empty subject and, when an issuer is
    configured, its issuer claim is that issuer. *)
Definition token_ok `{jwt.Primitives} (secret issuer : string) (now : Z)
    (tokenStr sub : string) : Prop :=
  ∃ token,
    jwt.ParseUnverified tokenStr = Some token
    ∧ jwt.Header_alg token = "HS256"
    ∧ jwt.Verify "HS256" secret tokenStr = true
    ∧ (∃ exp, jwt.GetExpirationTime (jwt.MapClaims token) = inl exp
         ∧ ∀ e, exp = Some e → (now < e)%Z)
    ∧ jwt.GetSubject (jwt.MapClaims token) = inl sub
    ∧ sub ≠ ""
    ∧ (issuer ≠ "" → jwt.GetIssuer (jwt.MapClaims token) = inl issuer).

(** *** Fixtures

    The requests and the symbolic tokens of the tests.  A fixture token is
    a word that stands for a signed token; the table gives its header
    algorithm, its claims and the key it was signed with. *)

Definition testSecret : string := "test-secret-key".

Definition fixture_tokens : gmap string (string * gmap string json.Value * string) :=
  {[ "valid" := ("HS256", {[ "sub" := json.JString "user1" ]}, testSecret);
     "wrong-secret" := ("HS256", {[ "sub" := json.JString "user1" ]}, "wrong-secret");
     "expired" := ("HS256", {[ "sub" := json.JString "user1"; "exp" := json.JNumber 1000 ]}, testSecret);
     "fresh" := ("HS256", {[ "sub" := json.JString "user1"; "exp" := json.JNumber 9000 ]}, testSecret);
     "issued" := ("HS256", {[ "sub" := json.JString "user1"; "iss" := json.JString "expected-issuer" ]}, testSecret);
     "no-sub" := ("HS256", ∅, testSecret);
     "hs512" := ("HS512", {[ "sub" := json.JString "user1" ]}, testSecret);
     "none" := ("none", {[ "sub" := json.JString "user1" ]}, "") ]}.

#[export] Instance fixture_primitives : jwt.Primitives := {
  jwt.ParseUnverified tokenStr :=
    match fixture_tokens !! tokenStr with
    | Some (alg, claims, _) =>
        Some {| jwt.Header_alg := alg; jwt.MapClaims := claims; jwt.Valid := false |}
    | None => None
    end;
  jwt.Verify alg key tokenStr :=
    match fixture_tokens !! tokenStr with
    | Some (alg', _, key') => bool_decide (alg = alg' ∧ key = key')
    | None => false
    end
}.

(** [httptest.NewRequest] on a preferences route, with the Authorization
    header and the claims of the context given. *)
Definition test_request (userID key auth : string) (claims : option Claims)
    (body : option json.Value) : Request :=
  {| URL_Path := "/api/v1/users/" +:+ userID +:+ "/preferences";
     Header_Authorization := auth;
     PathValues := {[ "userId" := userID; "key" := key ]};
     Context_claims := claims;
     Body := body |}.

Definition withClaims (r : Request) (sub : string) : Request :=
  WithContext_claims r {| Subject := sub |}.

(** A table with one user, written by [ReplaceAll]. *)
Definition alice_table : dynamodb.Table :=
  (DynamoStore.ReplaceAll ∅ "2024-01-01T00:00:00Z" "alice"
     (Some {[ "theme" := "dark"; "lang" := "en" ]})).1.

(** The scenario of the specification: PUT, PATCH, DELETE of a key, GET,
    all as alice, from an empty table. *)

Definition scenario_put : Outcome dynamodb.Table :=
  PreferencesHandler.ReplaceAll ∅ "2024-01-01T00:00:00Z"
    (withClaims (test_request "alice" "" "" None
       (Some (json.JObject [("theme", json.JString "dark");
                            ("lang", json.JString "en")]))) "alice").

Definition scenario_patch : Outcome dynamodb.Table :=
  PreferencesHandler.PatchPrefs (store scenario_put) "2024-01-02T00:00:00Z"
    (withClaims (test_request "alice" "" "" None
       (Some (json.JObject [("lang", json.JString "fr")]))) "alice").

Definition scenario_delete : Outcome dynamodb.Table :=
  PreferencesHandler.DeleteOne (store scenario_patch)
    (withClaims (test_request "alice" "theme" "" None None) "alice").

Definition scenario_get : Outcome dynamodb.Table :=
  PreferencesHandler.GetAll (store scenario_delete)
    (withClaims (test_request "alice" "" "" None None) "alice").


(** *** The shape of the records

    What every record the store writes looks like: the key attribute
    repeats the key it is stored under, the preferences attribute is a
    map whose members are all strings, and the two timestamps are
    strings. *)

Definition is_S (v : option dynamodb.AttributeValue) : Prop :=
  ∃ s, v = Some (dynamodb.AttributeValueMemberS s).

Definition wf_item (k : string) (item : dynamodb.Item) : Prop :=
  item !! "PK" = Some (dynamodb.AttributeValueMemberS k)
  ∧ (∃ m, item !! "preferences" = Some (dynamodb.AttributeValueMemberM m)
       ∧ ∀ key v, m !! key = Some v → ∃ s, v = dynamodb.AttributeValueMemberS s)
  ∧ is_S (item !! "createdAt")
  ∧ is_S (item !! "updatedAt").

Definition wf_table (t : dynamodb.Table) : Prop :=
  ∀ k item, t !! k = Some item → (∃ U, k = DynamoStore.pk U) ∧ wf_item k item.

(** *** Store operations of a handler *)

(** The user a store operation is addressed to. *)
Definition call_user (c : StoreCall) : string :=
  match c with
  | CallGetAll U => U
  | CallGet U _ => U
  | CallReplaceAll U _ => U
  | CallUpdate U _ => U
  | CallDeleteAll U => U
  | CallDelete U _ => U
  end.

(** The messages of the error responses the handlers write. *)
Definition handler_messages : list string :=
  [ "missing userId"; "missing claims"; "access denied"; "missing key";
    "invalid JSON body"; "empty preferences"; "preference not found";
    "failed to retrieve preferences"; "failed to retrieve preference";
    "failed to save preferences"; "failed to update preferences";
    "failed to delete preferences"; "failed to delete preference" ].

(** A handler behind the authentication middleware, as the router wires
    them: the middleware answers, or the handler serves the request the
    middleware passes on. *)
Definition JWTAuth_then_serve `{jwt.Primitives} {S : Type} `{Store S}
    (secret issuer : string) (clock : Z) (h : PreferencesHandler.Handler)
    (s : S) (now : string) (r : Request) : Outcome S :=
  match JWTAuth secret issuer clock r with
  | Respond resp => reply s resp
  | Next r' => PreferencesHandler.serve h s now r'
  end.

(** A response whose body, when it is an error, carries one of the
    handlers' messages and the status code of the response. *)
Definition fixed_error (resp : Response) : Prop :=
  ∀ msg code, ResponseBody resp = APIError msg code →
    msg ∈ handler_messages
    ∧ code = StatusCode resp
    ∧ code ∈ [StatusBadRequest; StatusUnauthorized; StatusForbidden;
              StatusNotFound; StatusInternalServerError].

(** ** config.go: configuration from the environment

    The environment is a map of variables; [os.Getenv] gives the empty
    string for a variable that is not set.  [slog.Level] is its integer
    value. *)

Module config.

Record Config := {
  ServerPort : string;
  DynamoEndpoint : string;
  DynamoTableName : string;
  JWTSecret : string;
  JWTIssuer : string;
  AWSRegion : string;
  CORSAllowOrigin : string;
  LogLevel : Z;
  DevBypassAuth : bool
}.

Definition LevelDebug : Z := (-4)%Z.
Definition LevelInfo : Z := 0%Z.
Definition LevelWarn : Z := 4%Z.
Definition LevelError : Z := 8%Z.

Definition Getenv (env : gmap string string) (key : string) : string :=
  match env !! key with
  | Some v => v
  | None => ""
  end.

Definition envOrDefault (env : gmap string string) (key fallback : string)
  : string :=
  if decide (Getenv env key ≠ "") then Getenv env key else fallback.

(** [strings.ToLower] is taken on the letters of ASCII.  The only other
    characters whose lower case is an ASCII letter are the Kelvin sign
    (k) and the dotted capital I (i), and neither letter occurs in the
    three words of the switch. *)
Definition parseLogLevel (s : string) : Z :=
  let l := strings.lower s in
  if decide (l = "debug") then LevelDebug
  else if decide (l = "warn") then LevelWarn
  else if decide (l = "error") then LevelError
  else LevelInfo.

Definition LoadConfig (env : gmap string string) : Config + string :=
  let secret := Getenv env "JWT_SECRET" in
  if decide (secret = "") then
    inr "JWT_SECRET environment variable is required"
  else
    inl {| ServerPort := envOrDefault env "SERVER_PORT" "8080";
           DynamoEndpoint := Getenv env "DYNAMODB_ENDPOINT";
           DynamoTableName := envOrDefault env "DYNAMODB_TABLE_NAME" "user-preferences";
           JWTSecret := secret;
           JWTIssuer := Getenv env "JWT_ISSUER";
           AWSRegion := envOrDefault env "AWS_REGION" "us-east-1";
           CORSAllowOrigin := envOrDefault env "CORS_ALLOW_ORIGIN" "*";
           LogLevel := parseLogLevel (Getenv env "LOG_LEVEL");
           DevBypassAuth := strings.EqualFold (Getenv env "DEV_BYPASS_AUTH") "true" |}.

End config.

(** ** middleware_test.go: the substring test of the logging test *)

(** [searchString]: the loop [for i := 0; i <= len(s)-len(substr); i++],
    run for the [n] values of [i] that remain. *)
Fixpoint searchString_from (s substr : string) (i n : nat) : bool :=
  match n with
  | O => false
  | S n' =>
      if decide (String.substring i (String.length substr) s = substr) then true
      else searchString_from s substr (S i) n'
  end.

(** The bound [len(s)-len(substr)] is a signed integer: when it is
    negative the loop body never runs. *)
Definition searchString (s substr : string) : bool :=
  searchString_from s substr 0
    (Z.to_nat (Z.of_nat (String.length s) - Z.of_nat (String.length substr) + 1)).

Definition contains (s substr : string) : bool :=
  bool_decide (String.length substr ≤ String.length s)%nat && searchString s substr.

(** *** The in-memory store against the DynamoDB store

    An in-memory store and a table agree when the former has no error
    injected and every user reads the same through both. *)
Definition mock_matches (m : mockStore.mockStore) (t : dynamodb.Table) : Prop :=
  mockStore.err m = None
  ∧ ∀ U, DynamoStore.GetAll t U = (mockStore.prefs_at m U, None).

(** * Properties *)

(** ** The update-expression parser *)

Section parser.
Import dynamodb.

Lemma parse_set_snoc body acts p v :
  parse_set body = Some acts →
  parse_set (body ++ [PComma; PAssign p v]) = Some (acts ++ [ASet p v]).
Proof.
  revert body. induction acts as [|a acts IH]; intros body Hp.
  - destruct body as [|[] [|[] ?]]; simplify_eq/=;
      destruct (parse_set _); simplify_eq/=.
  - destruct body as [|[| | |p0 v0|] rest]; simplify_eq/=.
    destruct rest as [|[] rest']; simplify_eq/=; [done|].
    destruct (parse_set rest') as [acts'|] eqn:E; simplify_eq/=.
    by rewrite (IH _ E).
Qed.

Lemma foldl_apply_action_None rs : foldl apply_action None rs = None.
Proof. by induction rs. Qed.

End parser.

Section update_loop.
Import dynamodb DynamoStore.

Lemma placeholder_inj (prefix : string) (j j' : nat) :
  prefix +:+ pretty j = prefix +:+ pretty j' → j = j'.
Proof. intros Heq. apply String.app_inj in Heq. by apply (inj pretty) in Heq. Qed.

Lemma Update_loop_snoc kvs kv :
  Update_loop (kvs ++ [kv]) = Update_loop_body (Update_loop kvs) kv.
Proof. unfold Update_loop. by rewrite foldl_snoc. Qed.

Lemma Update_loop_inv kvs : loop_inv kvs (Update_loop kvs).
Proof.
  induction kvs as [|kv kvs IH] using rev_ind.
  - split; try done. exists []. done.
  - rewrite Update_loop_snoc. destruct IH as [Hi Hn Hv (body & He & Hb)].
    split; simpl.
    + rewrite length_app, Hi. simpl. lia.
    + intros j kv' Hj. rewrite Hi.
      destruct (decide (j = length kvs)) as [->|Hne].
      * rewrite list_lookup_middle in Hj by done. simplify_eq.
        by rewrite lookup_insert_eq.
      * rewrite lookup_insert_ne by (intros ?%placeholder_inj; done).
        apply Hn. rewrite lookup_app_l in Hj; [done|].
        apply lookup_lt_Some in Hj. rewrite length_app in Hj. simpl in Hj. lia.
    + intros j kv' Hj. rewrite Hi.
      destruct (decide (j = length kvs)) as [->|Hne].
      * rewrite list_lookup_middle in Hj by done. simplify_eq.
        by rewrite lookup_insert_eq.
      * rewrite lookup_insert_ne by (intros ?%placeholder_inj; done).
        apply Hv. rewrite lookup_app_l in Hj; [done|].
        apply lookup_lt_Some in Hj. rewrite length_app in Hj. simpl in Hj. lia.
    + rewrite He, Hi. eexists. split; [done|].
      rewrite decide_False by (by destruct kvs).
      rewrite imap_app. simpl. rewrite Nat.add_0_r.
      destruct (decide (kvs = [])) as [->|Hne].
      * subst body. done.
      * rewrite decide_True by (destruct kvs; simpl; [done|lia]).
        simpl. by apply parse_set_snoc.
Qed.

End update_loop.

Section update_request.
Import dynamodb DynamoStore.

Lemma Update_input_parse now U kvs :
  kvs ≠ [] →
  parse_update (UpdateExpression (Update_input now U kvs))
  = Some (imap (λ j _, raw_clause j) kvs ++ [ASet ["updatedAt"] ":now"]).
Proof.
  intros Hne. destruct (Update_loop_inv kvs) as [_ _ _ (body & He & Hb)].
  rewrite decide_False in Hb by done.
  unfold Update_input. simpl. rewrite He. simpl.
  by apply parse_set_snoc.
Qed.

Lemma Update_input_parse_nil now U :
  parse_update (UpdateExpression (Update_input now U [])) = None.
Proof. done. Qed.

Lemma value_placeholder_ne_now (j : nat) : ":now" ≠ ":v" +:+ pretty j.
Proof. done. Qed.

Lemma Update_input_resolve now U kvs :
  mapM (resolve_action (ExpressionAttributeNames (Update_input now U kvs))
          (ExpressionAttributeValues (Update_input now U kvs)))
       (imap (λ j _, raw_clause j) kvs ++ [ASet ["updatedAt"] ":now"])
  = Some ((set_pref <$> kvs) ++ [RSet ["updatedAt"] (AttributeValueMemberS now)]).
Proof.
  destruct (Update_loop_inv kvs) as [_ Hn Hv _].
  apply mapM_Some. apply Forall2_app.
  - apply Forall2_same_length_lookup_2.
    + by rewrite length_imap, length_fmap.
    + intros j a r Ha Hr.
      rewrite list_lookup_imap in Ha. rewrite list_lookup_fmap in Hr.
      destruct (kvs !! j) as [kv|] eqn:Hj; simplify_eq/=.
      unfold resolve_path. simpl.
      rewrite (Hn _ _ Hj). simpl.
      rewrite lookup_insert_ne by apply value_placeholder_ne_now.
      by rewrite (Hv _ _ Hj).
  - constructor; [|constructor]. simpl.
    by rewrite lookup_insert_eq.
Qed.

Lemma no_overlap_prefs (ks : list string) :
  NoDup ks →
  no_overlap (((λ k, ["preferences"; k]) <$> ks) ++ [["updatedAt"]]) = true.
Proof.
  induction 1 as [|k ks Hk _ IH]; [done|].
  rewrite fmap_cons, <- app_comm_cons. cbn [no_overlap].
  rewrite IH, andb_true_r, forallb_app. cbn [forallb].
  apply andb_true_intro. split; [|done].
  apply forallb_forall. intros q Hq.
  apply list_elem_of_In, list_elem_of_fmap in Hq as (k' & -> & Hk').
  cbn [paths_overlap]. rewrite decide_True by done.
  rewrite decide_False; [done|]. by intros ->.
Qed.

Lemma resolved_path_set_pref kvs :
  resolved_path <$> (set_pref <$> kvs) = (λ k, ["preferences"; k]) <$> kvs.*1.
Proof. rewrite <- !list_fmap_compose. by apply list_fmap_ext. Qed.

End update_request.

Section update_effect.
Import dynamodb DynamoStore.

Lemma foldl_insert_union {V W} (f : V → W) (kvs : list (string * V))
    (m0 : gmap string W) :
  NoDup kvs.*1 →
  foldl (λ m kv, <[kv.1 := f kv.2]> m) m0 kvs = (f <$> list_to_map kvs) ∪ m0.
Proof.
  revert m0. induction kvs as [|[k v] kvs IH]; intros m0 Hnd.
  - simpl. by rewrite fmap_empty, (left_id_L ∅ (∪)).
  - apply NoDup_cons in Hnd as [Hk Hnd]. simpl. rewrite IH by done.
    rewrite fmap_insert. apply map_eq. intros k'.
    rewrite !lookup_union.
    destruct (decide (k = k')) as [<-|Hne].
    + rewrite !lookup_insert_eq, lookup_fmap.
      rewrite (not_elem_of_list_to_map_1 _ _ Hk).
      by destruct (m0 !! k).
    + by rewrite !lookup_insert_ne.
Qed.

Lemma foldl_set_pref item m0 kvs :
  item !! "preferences" = Some (AttributeValueMemberM m0) →
  foldl apply_action (Some item) (set_pref <$> kvs)
  = Some (<["preferences" :=
             AttributeValueMemberM
               (foldl (λ m kv, <[kv.1 := AttributeValueMemberS kv.2]> m) m0 kvs)]> item).
Proof.
  revert item m0. induction kvs as [|kv kvs IH]; intros item m0 Hp.
  - simpl. by rewrite insert_id.
  - simpl. rewrite Hp. simpl.
    erewrite IH by apply lookup_insert_eq.
    by rewrite insert_insert_eq.
Qed.

Lemma foldl_set_pref_invalid item kv kvs rest :
  ¬ is_map (item !! "preferences") →
  foldl apply_action (Some item) ((set_pref <$> kv :: kvs) ++ rest) = None.
Proof.
  intros Hp. simpl.
  destruct (item !! "preferences") as [[]|] eqn:E;
    try apply foldl_apply_action_None.
  destruct Hp. by eexists.
Qed.

Lemma omap_member_S_union (P : gmap string string) (m0 : Item) :
  omap member_S ((AttributeValueMemberS <$> P) ∪ m0) = P ∪ omap member_S m0.
Proof.
  apply map_eq. intros k.
  rewrite lookup_omap, !lookup_union, lookup_fmap, lookup_omap.
  destruct (P !! k), (m0 !! k) as [v|]; simpl; try done;
    by destruct (member_S v).
Qed.

Lemma omap_member_S_fmap (P : gmap string string) :
  omap member_S (AttributeValueMemberS <$> P) = P.
Proof.
  apply map_eq. intros k. rewrite lookup_omap, lookup_fmap.
  by destruct (P !! k).
Qed.

Lemma key_of_user_key U : key_of (user_key U) = Some (pk U).
Proof.
  unfold key_of, user_key. rewrite lookup_singleton_eq, map_size_singleton.
  done.
Qed.

#[global] Instance pk_inj : Inj (=) (=) pk.
Proof. intros U V Heq. by apply String.app_inj in Heq. Qed.

Lemma order_facts (P : gmap string string) order :
  order ≡ₚ map_to_list P →
  NoDup order.*1 ∧ list_to_map order = P ∧ (P ≠ ∅ → order ≠ []).
Proof.
  intros Hperm. split_and!.
  - rewrite Hperm. apply NoDup_fst_map_to_list.
  - rewrite <- (list_to_map_to_list P). apply list_to_map_proper; [|done].
    rewrite Hperm. apply NoDup_fst_map_to_list.
  - intros HP ->. apply HP. symmetry in Hperm.
    apply Permutation_nil_r in Hperm. by apply map_to_list_empty_iff.
Qed.

Lemma UpdateItem_Update_existing t now U (P : gmap string string) order item m0 :
  order ≡ₚ map_to_list P → P ≠ ∅ →
  t !! pk U = Some item →
  item !! "preferences" = Some (AttributeValueMemberM m0) →
  UpdateItem t (Update_input now U order)
  = (<[pk U := updated_item now P item m0]> t,
     inl {| Attributes := Some (updated_item now P item m0) |}).
Proof.
  intros (Hnd & HP & Hne)%order_facts HPne Ht Hp. specialize (Hne HPne).
  unfold UpdateItem.
  change (UpdateItemInput_Key (Update_input now U order)) with (user_key U).
  rewrite key_of_user_key, Update_input_parse by done.
  rewrite Update_input_resolve.
  rewrite fmap_app, resolved_path_set_pref. cbn [fmap list_fmap resolved_path].
  rewrite no_overlap_prefs by done.
  rewrite foldl_app. unfold base_item. rewrite Ht.
  rewrite (foldl_set_pref _ _ _ Hp). cbn [foldl apply_action mbind option_bind set_path].
  rewrite foldl_insert_union, HP by done.
  done.
Qed.

Lemma UpdateItem_Update_invalid t now U order :
  order ≠ [] →
  ¬ is_map (t !! pk U ≫= (.!! "preferences")) →
  NoDup order.*1 →
  UpdateItem t (Update_input now U order)
  = (t, inr (ValidationException "The document path provided in the update expression is invalid for update")).
Proof.
  intros Hne Hp Hnd. unfold UpdateItem.
  change (UpdateItemInput_Key (Update_input now U order)) with (user_key U).
  rewrite key_of_user_key, Update_input_parse by done.
  rewrite Update_input_resolve.
  rewrite fmap_app, resolved_path_set_pref. cbn [fmap list_fmap resolved_path].
  rewrite no_overlap_prefs by done.
  destruct order as [|kv kvs]; [done|].
  rewrite foldl_set_pref_invalid; [done|].
  unfold base_item. destruct (t !! pk U) as [item|]; [done|].
  intros [m Hm]. by rewrite lookup_singleton_ne in Hm.
Qed.

End update_effect.

(** ** The store operations on the table *)

Section store.
Import dynamodb DynamoStore.

Lemma GetAll_lookup t U :
  GetAll t U =
    match t !! pk U with
    | None => (None, None)
    | Some item => unmarshalPrefs (Some item)
    end.
Proof.
  unfold GetAll, GetItem. cbn [GetItemInput_Key GetItemOutput_Item].
  rewrite key_of_user_key. cbn [GetItemOutput_Item].
  by destruct (t !! pk U).
Qed.

Lemma GetAll_Some_inv t U m :
  GetAll t U = (Some m, None) →
  ∃ item m0, t !! pk U = Some item
    ∧ item !! "preferences" = Some (AttributeValueMemberM m0)
    ∧ m = omap member_S m0.
Proof.
  rewrite GetAll_lookup. destruct (t !! pk U) as [item|]; [|done].
  unfold unmarshalPrefs. simpl.
  destruct (item !! "preferences") as [[]|] eqn:E; intros; simplify_eq.
  eauto.
Qed.

Lemma GetAll_None_inv t U :
  GetAll t U = (None, None) →
  t !! pk U ≫= (.!! "preferences") = None.
Proof.
  rewrite GetAll_lookup. destruct (t !! pk U) as [item|]; [|done].
  unfold unmarshalPrefs. simpl.
  by destruct (item !! "preferences") as [[]|].
Qed.

Lemma GetAll_frame (t t' : Table) U :
  t' !! pk U = t !! pk U → GetAll t' U = GetAll t U.
Proof. intros Heq. by rewrite !GetAll_lookup, Heq. Qed.

Lemma Get_frame (t t' : Table) U k :
  t' !! pk U = t !! pk U → Get t' U k = Get t U k.
Proof. intros Heq. unfold Get. by rewrite (GetAll_frame _ _ _ Heq). Qed.

Lemma ReplaceAll_table t now U M :
  ReplaceAll t now U M = (<[pk U := ReplaceAll_item now U M]> t, None).
Proof. done. Qed.

Lemma unmarshalPrefs_ReplaceAll_item now U M :
  unmarshalPrefs (Some (ReplaceAll_item now U M)) = (Some (go_entries M), None).
Proof.
  unfold unmarshalPrefs, ReplaceAll_item. simpl.
  rewrite lookup_insert_ne, lookup_insert_eq by done.
  by rewrite omap_member_S_fmap.
Qed.

Lemma GetAll_ReplaceAll t now U M :
  GetAll (ReplaceAll t now U M).1 U = (Some (go_entries M), None).
Proof.
  rewrite ReplaceAll_table. simpl.
  by rewrite GetAll_lookup, lookup_insert_eq, unmarshalPrefs_ReplaceAll_item.
Qed.

Lemma DeleteAll_table t U : DeleteAll t U = (delete (pk U) t, None).
Proof.
  unfold DeleteAll, DeleteItem. cbn [DeleteItemInput_Key].
  by rewrite key_of_user_key.
Qed.

Lemma Delete_existing t U k item m0 :
  t !! pk U = Some item →
  item !! "preferences" = Some (AttributeValueMemberM m0) →
  Delete t U k
  = (<[pk U := <["preferences" := AttributeValueMemberM (delete k m0)]> item]> t, None).
Proof.
  intros Ht Hp. unfold Delete, UpdateItem.
  change (UpdateItemInput_Key (Delete_input U k)) with (user_key U).
  rewrite key_of_user_key. simpl.
  rewrite lookup_singleton_eq. simpl.
  unfold base_item. rewrite Ht, Hp. done.
Qed.

Lemma Delete_invalid t U k :
  ¬ is_map (t !! pk U ≫= (.!! "preferences")) →
  Delete t U k =
    (t, Some ("UpdateItem (REMOVE): " +:+
              ValidationException "The document path provided in the update expression is invalid for update")).
Proof.
  intros Hp. unfold Delete, UpdateItem.
  change (UpdateItemInput_Key (Delete_input U k)) with (user_key U).
  rewrite key_of_user_key. simpl.
  rewrite lookup_singleton_eq. simpl.
  unfold base_item. destruct (t !! pk U) as [item|] eqn:Ht; simpl in *.
  - destruct (item !! "preferences") as [[]|]; try done.
    destruct Hp. by eexists.
  - by rewrite lookup_singleton_ne.
Qed.

Lemma omap_member_S_delete k (m0 : Item) :
  omap member_S (delete k m0) = delete k (omap member_S m0).
Proof.
  apply map_eq. intros k'. rewrite lookup_omap.
  destruct (decide (k = k')) as [<-|Hne].
  - by rewrite !lookup_delete_eq.
  - by rewrite !lookup_delete_ne, lookup_omap.
Qed.

Lemma UpdateItem_frame t input t' out k :
  UpdateItem t input = (t', out) →
  key_of (UpdateItemInput_Key input) = Some k →
  ∀ k', k' ≠ k → t' !! k' = t !! k'.
Proof.
  unfold UpdateItem. intros Hu Hk k' Hne. rewrite Hk in Hu.
  repeat case_match; simplify_eq; try done.
  all: by rewrite lookup_insert_ne.
Qed.

Lemma UpdateInOrder_existing t now U (P : gmap string string) order m :
  order ≡ₚ map_to_list P → P ≠ ∅ →
  GetAll t U = (Some m, None) →
  ∃ item m0,
    t !! pk U = Some item
    ∧ item !! "preferences" = Some (AttributeValueMemberM m0)
    ∧ m = omap member_S m0
    ∧ UpdateInOrder t now U order
      = (<[pk U := updated_item now P item m0]> t, (Some (P ∪ m), None)).
Proof.
  intros Hperm HP (item & m0 & Ht & Hp & ->)%GetAll_Some_inv.
  exists item, m0. split_and!; try done.
  unfold UpdateInOrder.
  rewrite (UpdateItem_Update_existing _ _ _ _ _ _ _ Hperm HP Ht Hp).
  unfold unmarshalPrefs, updated_item. simpl.
  rewrite lookup_insert_ne, lookup_insert_eq by done.
  by rewrite omap_member_S_union.
Qed.

Lemma UpdateInOrder_absent t now U (P : gmap string string) order :
  order ≡ₚ map_to_list P → P ≠ ∅ →
  GetAll t U = (None, None) →
  UpdateInOrder t now U order =
    (t, (None, Some ("UpdateItem: " +:+
                     ValidationException "The document path provided in the update expression is invalid for update"))).
Proof.
  intros (Hnd & _ & Hne)%order_facts HP Hget%GetAll_None_inv.
  unfold UpdateInOrder. rewrite UpdateItem_Update_invalid; try done.
  - by apply Hne.
  - rewrite Hget. by intros [? ?].
Qed.

Lemma UpdateInOrder_empty t now U :
  UpdateInOrder t now U [] =
    (t, (None, Some ("UpdateItem: " +:+
                     ValidationException "Invalid UpdateExpression: Syntax error"))).
Proof.
  unfold UpdateInOrder, UpdateItem.
  change (UpdateItemInput_Key (Update_input now U [])) with (user_key U).
  by rewrite key_of_user_key.
Qed.

Lemma GetAll_updated t now U P item m0 :
  GetAll (<[pk U := updated_item now P item m0]> t) U
  = (Some (P ∪ omap member_S m0), None).
Proof.
  rewrite GetAll_lookup, lookup_insert_eq.
  unfold unmarshalPrefs, updated_item. simpl.
  rewrite lookup_insert_ne, lookup_insert_eq by done.
  by rewrite omap_member_S_union.
Qed.

End store.
(** ** Histories *)

Section histories.
Import dynamodb DynamoStore.

Lemma UpdateInOrder_frame t now U order V :
  V ≠ U → (UpdateInOrder t now U order).1 !! pk V = t !! pk V.
Proof.
  intros Hne. unfold UpdateInOrder.
  destruct (UpdateItem t (Update_input now U order)) as [t' [out|e]] eqn:Hu; simpl.
  all: eapply UpdateItem_frame; [exact Hu|apply key_of_user_key|].
  all: intros Heq%(inj pk); exact (Hne Heq).
Qed.

Lemma Delete_frame t U k V :
  V ≠ U → (Delete t U k).1 !! pk V = t !! pk V.
Proof.
  intros Hne. unfold Delete.
  destruct (UpdateItem t (Delete_input U k)) as [t' [out|e]] eqn:Hu; simpl.
  all: eapply UpdateItem_frame; [exact Hu|apply key_of_user_key|].
  all: intros Heq%(inj pk); exact (Hne Heq).
Qed.

Lemma ReplaceAll_frame t now U M V :
  V ≠ U → (ReplaceAll t now U M).1 !! pk V = t !! pk V.
Proof.
  intros Hne. rewrite ReplaceAll_table. simpl.
  apply lookup_insert_ne. by intros ?%(inj pk).
Qed.

Lemma DeleteAll_frame t U V :
  V ≠ U → (DeleteAll t U).1 !! pk V = t !! pk V.
Proof.
  intros Hne. rewrite DeleteAll_table. simpl.
  apply lookup_delete_ne. by intros ?%(inj pk).
Qed.

Lemma apply_op_frame t op U :
  op_user op ≠ U → apply_op t op !! pk U = t !! pk U.
Proof.
  destruct op; simpl; intros Hne.
  - by apply ReplaceAll_frame.
  - by apply UpdateInOrder_frame.
  - by apply DeleteAll_frame.
  - by apply Delete_frame.
Qed.

Lemma run_frame ops t U :
  Forall (λ op, op_user op ≠ U) ops → run ops t !! pk U = t !! pk U.
Proof.
  unfold run. revert t. induction ops as [|op ops IH]; intros t Hall; [done|].
  apply Forall_cons in Hall as [Hop Hall]. simpl.
  rewrite IH by done. by apply apply_op_frame.
Qed.

End histories.

(** ** Properties of the store *)

Section store_properties.
Import dynamodb DynamoStore.

(** Update on a user who has a Preference Set: the keys of [P] are
    overwritten, the others kept, whatever order the loop visits the
    entries in; the merged map is returned and is what GetAll reads
    next. *)
Lemma Update_merges_into_existing_set t now U (P m : gmap string string) order :
  order ≡ₚ map_to_list P → P ≠ ∅ →
  GetAll t U = (Some m, None) →
  (UpdateInOrder t now U order).2 = (Some (P ∪ m), None)
  ∧ GetAll (UpdateInOrder t now U order).1 U = (Some (P ∪ m), None).
Proof.
  intros Hperm HP Hget.
  destruct (UpdateInOrder_existing _ now _ _ _ _ Hperm HP Hget)
    as (item & m0 & Ht & Hp & -> & ->).
  split; [done|]. apply GetAll_updated.
Qed.

(** Update on a user who has no Preference Set: the service rejects the
    document path, the call fails and the table is left as it was. *)
Lemma Update_without_set_is_rejected t now U (P : gmap string string) order :
  order ≡ₚ map_to_list P → P ≠ ∅ →
  GetAll t U = (None, None) →
  (UpdateInOrder t now U order).1 = t
  ∧ ∃ e, (UpdateInOrder t now U order).2 = (None, Some e).
Proof.
  intros Hperm HP Hget.
  rewrite (UpdateInOrder_absent _ now _ _ _ Hperm HP Hget). eauto.
Qed.

(** Two updates of disjoint keys on an existing set, in either order. *)
Lemma Update_both_orders t now1 now2 U (P1 P2 m : gmap string string) o1 o2 :
  o1 ≡ₚ map_to_list P1 → o2 ≡ₚ map_to_list P2 →
  P1 ≠ ∅ → P2 ≠ ∅ → P1 ##ₘ P2 →
  GetAll t U = (Some m, None) →
  GetAll (UpdateInOrder (UpdateInOrder t now1 U o1).1 now2 U o2).1 U
    = (Some (P1 ∪ P2 ∪ m), None)
  ∧ GetAll (UpdateInOrder (UpdateInOrder t now2 U o2).1 now1 U o1).1 U
    = (Some (P1 ∪ P2 ∪ m), None).
Proof.
  intros H1 H2 HP1 HP2 Hdisj Hget.
  destruct (Update_merges_into_existing_set t now1 U P1 m o1 H1 HP1 Hget)
    as [_ G1].
  destruct (Update_merges_into_existing_set t now2 U P2 m o2 H2 HP2 Hget)
    as [_ G2].
  destruct (Update_merges_into_existing_set _ now2 U P2 _ o2 H2 HP2 G1) as [_ ->].
  destruct (Update_merges_into_existing_set _ now1 U P1 _ o1 H1 HP1 G2) as [_ ->].
  split.
  - by rewrite (map_union_comm P1 P2), !(assoc_L (∪)).
  - by rewrite !(assoc_L (∪)).
Qed.

(** C1 (defect). Update called for a user who has no Preference Set does
    not create it: the service rejects [SET preferences.#k0 = :v0] on an
    item without a [preferences] map, Update returns the error and GetAll
    still reads absent.  The in-memory store of the tests creates the set
    on the same call. *)
Theorem Update_first_write_is_rejected :
  DynamoStore.Update ∅ "2024-01-01T00:00:00Z" "alice" (Some {[ "lang" := "fr" ]})
  = (∅, (None, Some "UpdateItem: ValidationException: The document path provided in the update expression is invalid for update"))
  ∧ DynamoStore.GetAll ∅ "alice" = (None, None)
  ∧ (mockStore.Update mockStore.newMockStore "2024-01-01T00:00:00Z" "alice"
       (Some {[ "lang" := "fr" ]})).2
    = (Some {[ "lang" := "fr" ]}, None).
Proof. split_and!; by vm_compute. Qed.

(** C2 (defect). Two updates of disjoint keys for a user who has no
    Preference Set, applied by the service one after the other in either
    order: each is rejected and no key of either survives. *)
Theorem concurrent_first_updates_are_both_lost :
  (UpdateInOrder ∅ "T1" "alice" [("theme", "dark")]).2.2 ≠ None
  ∧ (UpdateInOrder ∅ "T2" "alice" [("lang", "fr")]).2.2 ≠ None
  ∧ GetAll (UpdateInOrder (UpdateInOrder ∅ "T1" "alice" [("theme", "dark")]).1
              "T2" "alice" [("lang", "fr")]).1 "alice" = (None, None)
  ∧ GetAll (UpdateInOrder (UpdateInOrder ∅ "T2" "alice" [("lang", "fr")]).1
              "T1" "alice" [("theme", "dark")]).1 "alice" = (None, None).
Proof. split_and!; by vm_compute. Qed.


End store_properties.
Section store_properties2.
Import dynamodb DynamoStore.



(** C7 (defect). DeleteKey for a user who has no Preference Set is an
    error, not a no-op without error: the service rejects
    [REMOVE preferences.#key] on an item without a [preferences] map, so
    Delete returns the error and the handler answers 500, for a user never
    written and for a user whose set DeleteAll removed alike (the set is
    not created).  The in-memory store of the tests returns no error on
    the same call and its handler answers 204. *)
Theorem Delete_without_set_is_an_error :
  DynamoStore.GetAll ∅ "alice" = (None, None)
  ∧ DynamoStore.Delete ∅ "alice" "theme"
    = (∅, Some "UpdateItem (REMOVE): ValidationException: The document path provided in the update expression is invalid for update")
  ∧ (DynamoStore.Delete (DynamoStore.DeleteAll alice_table "alice").1 "alice" "theme").2
    = Some "UpdateItem (REMOVE): ValidationException: The document path provided in the update expression is invalid for update"
  ∧ response (PreferencesHandler.DeleteOne (∅ : dynamodb.Table)
                (withClaims (test_request "alice" "theme" "" None None) "alice"))
    = writeError StatusInternalServerError "failed to delete preference"
  ∧ mockStore.Delete mockStore.newMockStore "alice" "theme"
    = (mockStore.newMockStore, None)
  ∧ response (PreferencesHandler.DeleteOne mockStore.newMockStore
                (withClaims (test_request "alice" "theme" "" None None) "alice"))
    = WriteHeader StatusNoContent.
Proof. split_and!; by vm_compute. Qed.

(** Get(U, k) against what GetAll(U) reads. *)
Lemma Get_found_iff (t : Table) (U k : string) (prefs : GoMap) :
  GetAll t U = (prefs, None) →
  ∃ v found, Get t U k = (v, found, None)
    ∧ (found = false ↔ prefs = None ∨ ∃ m, prefs = Some m ∧ m !! k = None)
    ∧ (found = true ↔ ∃ m, prefs = Some m ∧ m !! k = Some v).
Proof.
  intros Hget. unfold Get. rewrite Hget. clear Hget.
  destruct prefs as [m|]; simpl.
  - destruct (m !! k) as [v|] eqn:Hk; eexists _, _; (split; [done|]).
    + split; split; try done.
      * intros [?|(m' & ? & ?)]; simplify_eq.
      * intros _. by exists m.
    + split; split; try done.
      * intros _. right. by exists m.
      * intros (m' & ? & ?). simplify_eq.
  - eexists _, _. split; [done|]. split; split; try done.
    + intros _. by left.
    + intros (m' & ? & ?). simplify_eq.
Qed.



End store_properties2.

(** ** Properties of the handlers *)

Section handler_properties.
Import PreferencesHandler.
Context {S : Type} `{Store S}.

Lemma authorize_ok r U :
  PathValue r "userId" = U → U ≠ "" →
  ClaimsFromContext r = Some {| Subject := U |} →
  authorize r = inr U.
Proof.
  intros HU Hne Hc. unfold authorize. rewrite HU, Hc.
  rewrite decide_False by done. simpl.
  by rewrite decide_False by (by intros ?).
Qed.

Lemma authorize_unauthenticated r :
  PathValue r "userId" ≠ "" → ClaimsFromContext r = None →
  authorize r = inl (writeError StatusUnauthorized "missing claims").
Proof.
  intros Hne Hc. unfold authorize. rewrite Hc. by rewrite decide_False.
Qed.

Lemma authorize_forbidden r c :
  PathValue r "userId" ≠ "" → ClaimsFromContext r = Some c →
  Subject c ≠ PathValue r "userId" →
  authorize r = inl (writeError StatusForbidden "access denied").
Proof.
  intros Hne Hc Hsub. unfold authorize. rewrite Hc.
  rewrite decide_False by done. by rewrite decide_True.
Qed.

Lemma serve_rejected (h : Handler) (s : S) now r resp :
  authorize r = inl resp → serve h s now r = reply s resp.
Proof.
  intros Ha. destruct h; simpl;
    unfold GetAll, GetOne, ReplaceAll, PatchPrefs, DeleteAll, DeleteOne;
    by rewrite Ha.
Qed.

End handler_properties.

Section handler_claims.
Import PreferencesHandler.

(** C3, as stated, fails: a request whose path carries no user id and
    whose context carries no identity is answered 400, not 401. *)
Lemma missing_userId_precedes_missing_identity :
  ¬ (∀ (h : Handler) (t : dynamodb.Table) (now : string) (r : Request),
       ClaimsFromContext r = None →
       StatusCode (response (serve h t now r)) = StatusUnauthorized).
Proof.
  intros Hclaim.
  specialize (Hclaim HGetAll ∅ "" (test_request "" "" "" None None) eq_refl).
  vm_compute in Hclaim. discriminate.
Qed.

(** C3, amended.  For every request with a non-empty path userId reaching
    a preference handler: with no verified identity in the context the
    handler responds 401; with a verified subject that differs from the
    path userId it responds 403, whatever the store holds; in both cases
    no store operation is invoked and the store is left as it was; the two
    status codes differ. *)
Theorem authorization_failures {S : Type} `{Store S} (h : Handler) (s : S)
    (now : string) (r : Request) :
  PathValue r "userId" ≠ "" →
  (ClaimsFromContext r = None →
     StatusCode (response (serve h s now r)) = StatusUnauthorized
     ∧ calls (serve h s now r) = []
     ∧ store (serve h s now r) = s)
  ∧ (∀ c, ClaimsFromContext r = Some c → Subject c ≠ PathValue r "userId" →
     StatusCode (response (serve h s now r)) = StatusForbidden
     ∧ calls (serve h s now r) = []
     ∧ store (serve h s now r) = s)
  ∧ StatusUnauthorized ≠ StatusForbidden.
Proof.
  intros Hne. split_and!; [| |done].
  - intros Hc. by rewrite (serve_rejected _ _ _ _ _ (authorize_unauthenticated _ Hne Hc)).
  - intros c Hc Hsub.
    by rewrite (serve_rejected _ _ _ _ _ (authorize_forbidden _ _ Hne Hc Hsub)).
Qed.

Lemma authorization_failures_witness :
  PathValue (withClaims (test_request "bob" "" "" None None) "alice") "userId" ≠ ""
  ∧ StatusCode (response (serve HDeleteAll alice_table ""
       (withClaims (test_request "bob" "" "" None None) "alice"))) = StatusForbidden.
Proof.
  split; [vm_compute; discriminate|].
  destruct (authorization_failures HDeleteAll alice_table ""
              (withClaims (test_request "bob" "" "" None None) "alice"))
    as (_ & Hforbidden & _); [vm_compute; discriminate|].
  apply (Hforbidden {| Subject := "alice" |}).
  - reflexivity.
  - vm_compute; discriminate.
Defined.

End handler_claims.

(** ** Decoding request bodies *)

Section decoding.
Import json.

Lemma foldl_decode_member_inr e ms : foldl decode_member (inr e) ms = inr e.
Proof. by induction ms. Qed.

Lemma foldl_decode_member_ok ms m0 :
  forallb member_ok ms = true → ∃ m, foldl decode_member (inl m0) ms = inl m.
Proof.
  revert m0. induction ms as [|[k v] ms IH]; intros m0 Hok; [by eexists|].
  simpl in Hok. apply andb_prop in Hok as [Hv Hok].
  destruct v; try done; simpl; by apply IH.
Qed.

Lemma foldl_decode_member_bad ms m0 :
  forallb member_ok ms = false → ∃ e, foldl decode_member (inl m0) ms = inr e.
Proof.
  revert m0. induction ms as [|[k v] ms IH]; intros m0 Hbad; [done|].
  simpl in Hbad. apply andb_false_iff in Hbad as [Hv|Hbad].
  - destruct v; try done; simpl; rewrite foldl_decode_member_inr; by eexists.
  - destruct v; simpl; try (rewrite foldl_decode_member_inr; by eexists);
      by apply IH.
Qed.

Lemma Decode_rejects body :
  body_ok body = false → ∃ e, Decode body = inr e.
Proof.
  destruct body as [[]|]; simpl; try done; try by eexists.
  intros [e ->]%(foldl_decode_member_bad _ ∅). by eexists.
Qed.

Lemma Decode_accepts body :
  body_ok body = true → ∃ prefs, Decode body = inl prefs.
Proof.
  destruct body as [[]|]; simpl; try done; try by eexists.
  intros [m ->]%(foldl_decode_member_ok _ ∅). by eexists.
Qed.

End decoding.

Section handler_claims2.
Import PreferencesHandler.

Lemma GetAll_absent_is_empty {S : Type} `{Store S} (s : S) r U :
  PathValue r "userId" = U → U ≠ "" →
  ClaimsFromContext r = Some {| Subject := U |} →
  Store_GetAll s U = (None, None) →
  GetAll s r =
    {| response := writeJSON StatusOK (PreferencesResponse U (Some ∅));
       store := s; calls := [CallGetAll U] |}.
Proof.
  intros HU Hne Hc Hget. unfold GetAll.
  by rewrite (authorize_ok _ _ HU Hne Hc), Hget.
Qed.

Lemma GetOne_found {S : Type} `{Store S} (s : S) r U k v found :
  PathValue r "userId" = U → U ≠ "" →
  ClaimsFromContext r = Some {| Subject := U |} →
  PathValue r "key" = k → k ≠ "" →
  Store_Get s U k = (v, found, None) →
  GetOne s r =
    {| response :=
         if found then writeJSON StatusOK (SinglePrefResponse k v)
         else writeError StatusNotFound "preference not found";
       store := s; calls := [CallGet U k] |}.
Proof.
  intros HU Hne Hc Hk Hkne Hget. unfold GetOne.
  rewrite (authorize_ok _ _ HU Hne Hc), Hk, decide_False, Hget by done.
  by destruct found.
Qed.



(** C8. Get(U, k) on a table where GetAll(U) reads [prefs]: found is
    false exactly when the user has no Preference Set or the set has no
    key [k], and otherwise the value returned is the stored one; the
    single-key read handler answers an authorized request for a key with
    404 when found is false and with 200 and the pair of key and value
    when found is true. *)
Theorem Get_found_and_GetOne (t : dynamodb.Table) (U k : string) (prefs : GoMap) :
  DynamoStore.GetAll t U = (prefs, None) →
  ∃ v found,
    DynamoStore.Get t U k = (v, found, None)
    ∧ (found = false ↔ prefs = None ∨ ∃ m, prefs = Some m ∧ m !! k = None)
    ∧ (found = true ↔ ∃ m, prefs = Some m ∧ m !! k = Some v)
    ∧ ∀ r, PathValue r "userId" = U → U ≠ "" →
        ClaimsFromContext r = Some {| Subject := U |} →
        PathValue r "key" = k → k ≠ "" →
        response (GetOne t r)
        = if found then writeJSON StatusOK (SinglePrefResponse k v)
          else writeError StatusNotFound "preference not found".
Proof.
  intros Hget.
  destruct (Get_found_iff t U k prefs Hget) as (v & found & HGet & Hf & Ht).
  exists v, found.
  split; [exact HGet|]. split; [exact Hf|]. split; [exact Ht|].
  intros r HU Hne Hc Hk Hkne.
  rewrite (GetOne_found (H := DynamoStore_Store) _ _ _ _ _ _
             HU Hne Hc Hk Hkne HGet). reflexivity.
Qed.

Lemma Get_found_and_GetOne_witness :
  DynamoStore.GetAll alice_table "alice"
    = (Some {[ "theme" := "dark"; "lang" := "en" ]}, None)
  ∧ ∃ v found,
      DynamoStore.Get alice_table "alice" "theme" = (v, found, None)
      ∧ response (GetOne alice_table
                    (withClaims (test_request "alice" "theme" "" None None) "alice"))
        = if found then writeJSON StatusOK (SinglePrefResponse "theme" v)
          else writeError StatusNotFound "preference not found".
Proof.
  split; [vm_compute; reflexivity|].
  destruct (Get_found_and_GetOne alice_table "alice" "theme"
              (Some {[ "theme" := "dark"; "lang" := "en" ]}))
    as (v & found & HGet & _ & _ & Hresp); [vm_compute; reflexivity|].
  exists v, found. split; [exact HGet|].
  apply Hresp.
  - reflexivity.
  - vm_compute; discriminate.
  - reflexivity.
  - reflexivity.
  - vm_compute; discriminate.
Defined.




End handler_claims2.

(** ** Properties of the middleware *)

Section middleware.
Context `{jwt.Primitives}.

Lemma cut_spec sep s before after :
  strings.cut sep s = Some (before, after) →
  s = before +:+ String sep after.
Proof.
  revert before after.
  induction s as [|c s IH]; intros before after; simpl; [done|].
  case_decide as Hc.
  - intros [= <- <-]. by rewrite Hc.
  - destruct (strings.cut sep s) as [[b a]|]; [|done].
    intros [= <- <-]. by rewrite (IH b a eq_refl) at 1.
Qed.

Lemma SplitN_space_2_pair authHeader scheme tokenStr :
  strings.SplitN_space_2 authHeader = [scheme; tokenStr] →
  authHeader = scheme +:+ " " +:+ tokenStr.
Proof.
  unfold strings.SplitN_space_2.
  destruct (strings.cut " " authHeader) as [[b a]|] eqn:Hcut; [|done].
  intros [= <- <-]. by apply cut_spec.
Qed.

Lemma NewParser_JWTAuth issuer :
  jwt.NewParser
    ([jwt.WithValidMethods ["HS256"]]
     ++ (if decide (issuer ≠ "") then [jwt.WithIssuer issuer] else []))
  = {| jwt.validMethods := Some ["HS256"]; jwt.expectedIss := issuer |}.
Proof.
  case_decide as Hi; [done|]. by subst.
Qed.

Lemma verifyIssuer_true claims cmp :
  jwt.verifyIssuer claims cmp = true → jwt.GetIssuer claims = inl cmp.
Proof.
  unfold jwt.verifyIssuer. destruct (jwt.GetIssuer claims) as [iss|]; [|done].
  case_decide; [done|]. by intros ->%bool_decide_eq_true.
Qed.

Lemma verifyExpiresAt_true claims now :
  jwt.verifyExpiresAt claims now = true →
  ∃ exp, jwt.GetExpirationTime claims = inl exp
    ∧ ∀ e, exp = Some e → (now < e)%Z.
Proof.
  unfold jwt.verifyExpiresAt.
  destruct (jwt.GetExpirationTime claims) as [[e|]|]; [| |done].
  - intros Hlt%bool_decide_eq_true. eexists. split; [done|]. by intros ? [= <-].
  - intros _. eexists. split; [done|]. by intros ?.
Qed.

Lemma Parse_ok tokenStr secret issuer now token :
  jwt.Parse tokenStr (λ _, inl secret)
    ([jwt.WithValidMethods ["HS256"]]
     ++ (if decide (issuer ≠ "") then [jwt.WithIssuer issuer] else [])) now
  = inl token →
  ∃ unverified,
    jwt.ParseUnverified tokenStr = Some unverified
    ∧ jwt.MapClaims token = jwt.MapClaims unverified
    ∧ jwt.Header_alg unverified = "HS256"
    ∧ jwt.Verify "HS256" secret tokenStr = true
    ∧ jwt.verifyExpiresAt (jwt.MapClaims token) now = true
    ∧ jwt.verifyNotBefore (jwt.MapClaims token) now = true
    ∧ (issuer ≠ "" → jwt.verifyIssuer (jwt.MapClaims token) issuer = true).
Proof.
  unfold jwt.Parse. rewrite NewParser_JWTAuth.
  destruct (jwt.ParseUnverified tokenStr) as [u|]; [|done].
  unfold jwt.method_valid, jwt.Validate. simpl.
  destruct (bool_decide (jwt.Header_alg u ∈ ["HS256"])) eqn:Halg; [|done].
  apply bool_decide_eq_true, list_elem_of_singleton in Halg.
  simpl. rewrite Halg.
  destruct (jwt.Verify "HS256" secret tokenStr) eqn:Hsig; [|done]. simpl.
  destruct (jwt.verifyExpiresAt (jwt.MapClaims u) now) eqn:Hexp; [|done].
  destruct (jwt.verifyNotBefore (jwt.MapClaims u) now) eqn:Hnbf; [|done].
  simpl. case_decide as Hi.
  - intros [= <-]. exists u. by split_and!.
  - destruct (jwt.verifyIssuer (jwt.MapClaims u) issuer) eqn:Hiss; [|done].
    intros [= <-]. exists u. by split_and!.
Qed.

End middleware.

Section middleware_claims.
Context `{jwt.Primitives}.

Lemma JWTAuth_outcome secret issuer now r :
  URL_Path r ≠ "/healthz" →
  (∃ scheme tokenStr sub,
     Header_Authorization r = scheme +:+ " " +:+ tokenStr
     ∧ strings.EqualFold scheme "Bearer" = true
     ∧ token_ok secret issuer now tokenStr sub
     ∧ JWTAuth secret issuer now r = Next (WithContext_claims r {| Subject := sub |}))
  ∨ ∃ msg, JWTAuth secret issuer now r = Respond (writeError StatusUnauthorized msg).
Proof.
  intros Hpath. unfold JWTAuth. rewrite decide_False by done. cbv zeta.
  case_decide as Hh; [right; eexists; reflexivity|].
  destruct (strings.SplitN_space_2 (Header_Authorization r))
    as [|scheme [|tokenStr [|]]] eqn:Hsplit; try (right; eexists; reflexivity).
  apply SplitN_space_2_pair in Hsplit.
  destruct (strings.EqualFold scheme "Bearer") eqn:Hfold; simpl;
    [|right; eexists; reflexivity].
  destruct (jwt.Parse _ _ _ _) as [token|e] eqn:Hparse; [|right; eexists; reflexivity].
  destruct (jwt.Valid token); simpl; [|right; eexists; reflexivity].
  destruct (jwt.GetSubject (jwt.MapClaims token)) as [sub|e] eqn:Hsub;
    [|right; eexists; reflexivity].
  destruct (decide (sub = "")) as [Hs|Hne]; [right; eexists; reflexivity|].
  left. exists scheme, tokenStr, sub. split_and!; try done.
  apply Parse_ok in Hparse
    as (u & Hu & Hclaims & Halg & Hsig & Hexp & _ & Hiss).
  rewrite Hclaims in *. exists u. split_and!; try done.
  - by apply verifyExpiresAt_true.
  - intros Hi. by apply verifyIssuer_true, Hiss.
Qed.


End middleware_claims.


(** The cases of the middleware tests, on the fixture tokens. *)

Example TestJWTAuth_ValidToken :
  JWTAuth testSecret "" 5000 (test_request "user1" "" "Bearer valid" None None)
  = Next (withClaims (test_request "user1" "" "Bearer valid" None None) "user1").
Proof. vm_compute; reflexivity. Qed.

Example TestJWTAuth_MissingHeader :
  JWTAuth testSecret "" 5000 (test_request "user1" "" "" None None)
  = Respond (writeError StatusUnauthorized "missing authorization header").
Proof. vm_compute; reflexivity. Qed.

Example TestJWTAuth_InvalidToken :
  JWTAuth testSecret "" 5000 (test_request "user1" "" "Bearer invalid-token" None None)
  = Respond (writeError StatusUnauthorized "invalid or expired token").
Proof. vm_compute; reflexivity. Qed.

Example TestJWTAuth_WrongSecret :
  JWTAuth testSecret "" 5000 (test_request "user1" "" "Bearer wrong-secret" None None)
  = Respond (writeError StatusUnauthorized "invalid or expired token").
Proof. vm_compute; reflexivity. Qed.

Example TestJWTAuth_ExpiredToken :
  JWTAuth testSecret "" 5000 (test_request "user1" "" "Bearer expired" None None)
  = Respond (writeError StatusUnauthorized "invalid or expired token").
Proof. vm_compute; reflexivity. Qed.

Example TestJWTAuth_FreshToken :
  JWTAuth testSecret "" 5000 (test_request "user1" "" "bearer fresh" None None)
  = Next (withClaims (test_request "user1" "" "bearer fresh" None None) "user1").
Proof. vm_compute; reflexivity. Qed.

Example TestJWTAuth_BadFormat :
  JWTAuth testSecret "" 5000 (test_request "user1" "" "NotBearer valid" None None)
  = Respond (writeError StatusUnauthorized "invalid authorization header format").
Proof. vm_compute; reflexivity. Qed.

Example TestJWTAuth_IssuerValidation :
  JWTAuth testSecret "expected-issuer" 5000
    (test_request "user1" "" "Bearer valid" None None)
  = Respond (writeError StatusUnauthorized "invalid or expired token")
  ∧ JWTAuth testSecret "expected-issuer" 5000
      (test_request "user1" "" "Bearer issued" None None)
    = Next (withClaims (test_request "user1" "" "Bearer issued" None None) "user1").
Proof. split; vm_compute; reflexivity. Qed.

Example TestJWTAuth_OtherAlgorithm :
  JWTAuth testSecret "" 5000 (test_request "user1" "" "Bearer hs512" None None)
  = Respond (writeError StatusUnauthorized "invalid or expired token")
  ∧ JWTAuth "" "" 5000 (test_request "user1" "" "Bearer none" None None)
    = Respond (writeError StatusUnauthorized "invalid or expired token").
Proof. split; vm_compute; reflexivity. Qed.

Example TestJWTAuth_MissingSubject :
  JWTAuth testSecret "" 5000 (test_request "user1" "" "Bearer no-sub" None None)
  = Respond (writeError StatusUnauthorized "token missing subject claim").
Proof. vm_compute; reflexivity. Qed.

Example TestJWTAuth_SkipsHealthz :
  JWTAuth testSecret "" 5000
    {| URL_Path := "/healthz"; Header_Authorization := ""; PathValues := ∅;
       Context_claims := None; Body := None |}
  = Next {| URL_Path := "/healthz"; Header_Authorization := ""; PathValues := ∅;
            Context_claims := None; Body := None |}.
Proof. vm_compute; reflexivity. Qed.

(** ** The scenario of the specification *)

Example scenario_responses :
  response scenario_put
    = writeJSON StatusOK
        (PreferencesResponse "alice" (Some {[ "theme" := "dark"; "lang" := "en" ]}))
  ∧ response scenario_patch
    = writeJSON StatusOK
        (PreferencesResponse "alice" (Some {[ "theme" := "dark"; "lang" := "fr" ]}))
  ∧ response scenario_delete = WriteHeader StatusNoContent
  ∧ response scenario_get
    = writeJSON StatusOK (PreferencesResponse "alice" (Some {[ "lang" := "fr" ]})).
Proof. split_and!; vm_compute; reflexivity. Qed.

(** The same PATCH as the first request of a user is answered 500 by the
    handler over DynamoDB and 200 by the handler over the in-memory
    store. *)
Example first_patch_responses :
  response (PreferencesHandler.PatchPrefs (∅ : dynamodb.Table) "2024-01-02T00:00:00Z"
              (withClaims (test_request "alice" "" "" None
                 (Some (json.JObject [("lang", json.JString "fr")]))) "alice"))
    = writeError StatusInternalServerError "failed to update preferences"
  ∧ response (PreferencesHandler.PatchPrefs mockStore.newMockStore "2024-01-02T00:00:00Z"
                (withClaims (test_request "alice" "" "" None
                   (Some (json.JObject [("lang", json.JString "fr")]))) "alice"))
    = writeJSON StatusOK (PreferencesResponse "alice" (Some {[ "lang" := "fr" ]})).
Proof. split; vm_compute; reflexivity. Qed.

(** * Further properties of the store *)

Section store_extras.
Import dynamodb DynamoStore.

Lemma is_map_cases (t : Table) U :
  (∃ item m0, t !! pk U = Some item
     ∧ item !! "preferences" = Some (AttributeValueMemberM m0))
  ∨ ¬ is_map (t !! pk U ≫= (.!! "preferences")).
Proof.
  destruct (t !! pk U) as [item|]; simpl; [|right; by intros [? ?]].
  destruct (item !! "preferences") as [[| | |m0]|] eqn:Hp;
    try (right; by intros [? ?]).
  left. eauto.
Qed.

(** What one call of Update does to the table, for any visiting order:
    nothing, with an error returned, or the rewrite of the user's
    record. *)
Lemma UpdateInOrder_cases t now U order :
  ((UpdateInOrder t now U order).1 = t
   ∧ ∃ e, (UpdateInOrder t now U order).2 = (None, Some e))
  ∨ ∃ item m0,
      t !! pk U = Some item
      ∧ item !! "preferences" = Some (AttributeValueMemberM m0)
      ∧ (UpdateInOrder t now U order).1
        = <[pk U :=
              <["updatedAt" := AttributeValueMemberS now]>
                (<["preferences" :=
                     AttributeValueMemberM
                       (foldl (λ m kv, <[kv.1 := AttributeValueMemberS kv.2]> m)
                          m0 order)]> item)]> t.
Proof.
  destruct (decide (order = [])) as [->|Hne].
  { left. rewrite UpdateInOrder_empty. eauto. }
  unfold UpdateInOrder, UpdateItem.
  change (UpdateItemInput_Key (Update_input now U order)) with (user_key U).
  rewrite key_of_user_key, Update_input_parse by done.
  rewrite Update_input_resolve.
  destruct (no_overlap _) eqn:Hov; [|left; eauto].
  destruct (is_map_cases t U) as [(item & m0 & Ht & Hp)|Hinv].
  - right. exists item, m0. split_and!; try done.
    rewrite foldl_app. unfold base_item. rewrite Ht.
    by rewrite (foldl_set_pref _ _ _ Hp).
  - left. destruct order as [|kv kvs]; [done|].
    rewrite foldl_set_pref_invalid; [eauto|].
    unfold base_item. destruct (t !! pk U) as [item|]; [done|].
    intros [m Hm]. by rewrite lookup_singleton_ne in Hm.
Qed.

Lemma foldl_insert_S_members (m0 : Item) (kvs : list (string * string)) :
  (∀ key v, m0 !! key = Some v → ∃ s, v = AttributeValueMemberS s) →
  ∀ key v, foldl (λ m kv, <[kv.1 := AttributeValueMemberS kv.2]> m) m0 kvs !! key
           = Some v → ∃ s, v = AttributeValueMemberS s.
Proof.
  revert m0. induction kvs as [|kv kvs IH]; intros m0 Hm0; [done|].
  simpl. apply IH. intros key v.
  destruct (decide (kv.1 = key)) as [<-|Hne].
  - rewrite lookup_insert_eq. intros [= <-]. eauto.
  - rewrite lookup_insert_ne by done. apply Hm0.
Qed.

Lemma wf_table_insert t U item :
  wf_table t → wf_item (pk U) item → wf_table (<[pk U := item]> t).
Proof.
  intros Hwf Hitem k item'.
  destruct (decide (pk U = k)) as [<-|Hne].
  - rewrite lookup_insert_eq. intros [= <-]. split; [by exists U|done].
  - rewrite lookup_insert_ne by done. apply Hwf.
Qed.

Lemma wf_ReplaceAll_item now U M : wf_item (pk U) (ReplaceAll_item now U M).
Proof.
  unfold wf_item, ReplaceAll_item. split_and!.
  - by rewrite lookup_insert_eq.
  - eexists. split; [by rewrite lookup_insert_ne, lookup_insert_eq by done|].
    intros key v. rewrite lookup_fmap.
    destruct (go_entries M !! key); intros; simplify_eq/=. eauto.
  - eexists. by rewrite !lookup_insert_ne, lookup_singleton_eq by done.
  - eexists. by rewrite !lookup_insert_ne, lookup_insert_eq by done.
Qed.

Lemma wf_apply_op t op : wf_table t → wf_table (apply_op t op).
Proof.
  intros Hwf. destruct op as [now U M|now U order|U|U k]; simpl.
  - rewrite ReplaceAll_table. simpl.
    apply wf_table_insert; [done|apply wf_ReplaceAll_item].
  - destruct (UpdateInOrder_cases t now U order)
      as [[-> _]|(item & m0 & Ht & Hp & ->)]; [done|].
    apply wf_table_insert; [done|].
    destruct (Hwf _ _ Ht) as [_ (HPK & (m & Hm & Hall) & [c Hc] & _)].
    rewrite Hp in Hm. injection Hm as <-.
    unfold wf_item. split_and!.
    + by rewrite !lookup_insert_ne by done.
    + eexists. split; [by rewrite lookup_insert_ne, lookup_insert_eq by done|].
      by apply foldl_insert_S_members.
    + exists c. by rewrite !lookup_insert_ne by done.
    + eexists. by rewrite lookup_insert_eq.
  - rewrite DeleteAll_table. simpl. intros k item.
    destruct (decide (pk U = k)) as [<-|Hne].
    + by rewrite lookup_delete_eq.
    + rewrite lookup_delete_ne by done. apply Hwf.
  - destruct (is_map_cases t U) as [(item & m0 & Ht & Hp)|Hinv].
    + rewrite (Delete_existing _ _ _ _ _ Ht Hp). simpl.
      apply wf_table_insert; [done|].
      destruct (Hwf _ _ Ht) as [_ (HPK & (m & Hm & Hall) & [c Hc] & [u Hu])].
      rewrite Hp in Hm. injection Hm as <-.
      unfold wf_item. split_and!.
      * by rewrite lookup_insert_ne by done.
      * eexists. split; [by rewrite lookup_insert_eq|].
        intros key v.
        destruct (decide (k = key)) as [<-|Hne].
        -- by rewrite lookup_delete_eq.
        -- rewrite lookup_delete_ne by done. apply Hall.
      * exists c. by rewrite lookup_insert_ne by done.
      * exists u. by rewrite lookup_insert_ne by done.
    + by rewrite (Delete_invalid _ _ _ Hinv).
Qed.

Lemma wf_run ops t : wf_table t → wf_table (run ops t).
Proof.
  unfold run. revert t. induction ops as [|op ops IH]; intros t Hwf; [done|].
  simpl. apply IH. by apply wf_apply_op.
Qed.

Lemma wf_GetAll t U : wf_table t → (GetAll t U).2 = None.
Proof.
  intros Hwf. rewrite GetAll_lookup.
  destruct (t !! pk U) as [item|] eqn:Ht; [|done].
  destruct (Hwf _ _ Ht) as [_ (_ & (m & Hm & _) & _)].
  unfold unmarshalPrefs. simpl. by rewrite Hm.
Qed.

(** X1. Whatever sequence of writes the store has performed since the
    table was empty, in whatever visiting orders, every record of the
    table is stored under the key of some user, repeats that key in its
    PK attribute, holds a preferences map of strings and two string
    timestamps; hence on such a table GetAll and Get never report an
    error. *)
Theorem store_keeps_records_well_formed (ops : list StoreOp) (U k : string) :
  wf_table (run ops ∅)
  ∧ (GetAll (run ops ∅) U).2 = None
  ∧ (Get (run ops ∅) U k).2 = None.
Proof.
  assert (Hwf : wf_table (run ops ∅)) by (by apply wf_run).
  split_and!; [done|by apply wf_GetAll|].
  pose proof (wf_GetAll _ U Hwf) as Hget. unfold Get.
  by destruct (GetAll (run ops ∅) U) as [prefs [e|]].
Qed.



(** X3. Writes addressed to other users never change what a user reads:
    after any sequence of ReplaceAll, Update, DeleteAll and Delete calls
    none of which is for U, GetAll(U) and Get(U, k) return what they
    returned before. *)
Theorem writes_do_not_cross_users (ops : list StoreOp) (t : Table) (U k : string) :
  Forall (λ op, op_user op ≠ U) ops →
  GetAll (run ops t) U = GetAll t U
  ∧ Get (run ops t) U k = Get t U k.
Proof.
  intros Hops. pose proof (run_frame ops t U Hops) as Hframe.
  split; [by apply GetAll_frame|by apply Get_frame].
Qed.

Lemma writes_do_not_cross_users_witness :
  Forall (λ op, op_user op ≠ "alice")
    [OpReplaceAll "2024-02-01T00:00:00Z" "bob" (Some {[ "theme" := "light" ]});
     OpUpdate "2024-02-02T00:00:00Z" "bob" [("lang", "de")];
     OpDeleteAll "carol"]
  ∧ GetAll (run [OpReplaceAll "2024-02-01T00:00:00Z" "bob" (Some {[ "theme" := "light" ]});
                 OpUpdate "2024-02-02T00:00:00Z" "bob" [("lang", "de")];
                 OpDeleteAll "carol"] alice_table) "alice"
    = GetAll alice_table "alice".
Proof.
  assert (Hops : Forall (λ op, op_user op ≠ "alice")
    [OpReplaceAll "2024-02-01T00:00:00Z" "bob" (Some {[ "theme" := "light" ]});
     OpUpdate "2024-02-02T00:00:00Z" "bob" [("lang", "de")];
     OpDeleteAll "carol"]).
  { repeat constructor; vm_compute; discriminate. }
  split; [exact Hops|].
  apply (writes_do_not_cross_users _ alice_table "alice" "theme" Hops).
Defined.

(** X4. The order in which the loop of Update visits the entries of the
    mapping does not matter: two visiting orders of the same mapping
    leave the same table and return the same result, on every table. *)
Theorem Update_order_is_irrelevant (t : Table) (now U : string)
    (P : gmap string string) (order1 order2 : list (string * string)) :
  order1 ≡ₚ map_to_list P → order2 ≡ₚ map_to_list P →
  UpdateInOrder t now U order1 = UpdateInOrder t now U order2.
Proof.
  intros H1 H2.
  destruct (decide (P = ∅)) as [->|HP].
  { rewrite map_to_list_empty in H1, H2.
    apply Permutation_nil_r in H1 as ->. by apply Permutation_nil_r in H2 as ->. }
  destruct (order_facts _ _ H1) as (Hnd1 & _ & Hne1).
  destruct (order_facts _ _ H2) as (Hnd2 & _ & Hne2).
  unfold UpdateInOrder.
  destruct (is_map_cases t U) as [(item & m0 & Ht & Hp)|Hinv].
  - by rewrite (UpdateItem_Update_existing _ _ _ _ _ _ _ H1 HP Ht Hp),
               (UpdateItem_Update_existing _ _ _ _ _ _ _ H2 HP Ht Hp).
  - by rewrite !UpdateItem_Update_invalid by auto.
Qed.

Lemma Update_order_is_irrelevant_witness :
  [("lang", "fr"); ("font", "mono")]
    ≡ₚ map_to_list ({[ "lang" := "fr"; "font" := "mono" ]} : gmap string string)
  ∧ [("font", "mono"); ("lang", "fr")]
    ≡ₚ map_to_list ({[ "lang" := "fr"; "font" := "mono" ]} : gmap string string)
  ∧ UpdateInOrder alice_table "2024-06-01T00:00:00Z" "alice"
      [("lang", "fr"); ("font", "mono")]
    = UpdateInOrder alice_table "2024-06-01T00:00:00Z" "alice"
        [("font", "mono"); ("lang", "fr")].
Proof.
  assert (H1 : [("lang", "fr"); ("font", "mono")]
    ≡ₚ map_to_list ({[ "lang" := "fr"; "font" := "mono" ]} : gmap string string)).
  { vm_compute. apply perm_swap. }
  assert (H2 : [("font", "mono"); ("lang", "fr")]
    ≡ₚ map_to_list ({[ "lang" := "fr"; "font" := "mono" ]} : gmap string string)).
  { vm_compute. reflexivity. }
  split_and!; [exact H1|exact H2|].
  exact (Update_order_is_irrelevant alice_table "2024-06-01T00:00:00Z" "alice"
           _ _ _ H1 H2).
Defined.



(** X6. Two updates applied one after the other to a user who has a
    Preference Set [m]: the set ends as the second mapping merged over
    the first merged over [m], so a key both mappings mention keeps the
    value of the later call. *)
Theorem Update_twice_last_write_wins (t : Table) (now1 now2 U : string)
    (P1 P2 m : gmap string string) (order1 order2 : list (string * string)) :
  order1 ≡ₚ map_to_list P1 → order2 ≡ₚ map_to_list P2 →
  P1 ≠ ∅ → P2 ≠ ∅ →
  GetAll t U = (Some m, None) →
  GetAll (UpdateInOrder (UpdateInOrder t now1 U order1).1 now2 U order2).1 U
    = (Some (P2 ∪ (P1 ∪ m)), None)
  ∧ (∀ k v, P2 !! k = Some v →
       Get (UpdateInOrder (UpdateInOrder t now1 U order1).1 now2 U order2).1 U k
       = (v, true, None)).
Proof.
  intros H1 H2 HP1 HP2 Hget.
  destruct (Update_merges_into_existing_set t now1 U P1 m order1 H1 HP1 Hget)
    as [_ G1].
  destruct (Update_merges_into_existing_set _ now2 U P2 _ order2 H2 HP2 G1)
    as [_ G2].
  split; [exact G2|].
  intros k v Hk. unfold Get. rewrite G2. clear G1 G2 Hget. simpl.
  by rewrite (lookup_union_Some_l _ _ _ _ Hk).
Qed.

Lemma Update_twice_last_write_wins_witness :
  [("lang", "fr")] ≡ₚ map_to_list ({[ "lang" := "fr" ]} : gmap string string)
  ∧ [("lang", "de")] ≡ₚ map_to_list ({[ "lang" := "de" ]} : gmap string string)
  ∧ Get (UpdateInOrder (UpdateInOrder alice_table "2024-06-01T00:00:00Z" "alice"
                          [("lang", "fr")]).1
           "2024-06-02T00:00:00Z" "alice" [("lang", "de")]).1 "alice" "lang"
    = ("de", true, None).
Proof.
  split_and!; [vm_compute; reflexivity|vm_compute; reflexivity|].
  apply (Update_twice_last_write_wins alice_table "2024-06-01T00:00:00Z"
           "2024-06-02T00:00:00Z" "alice" {[ "lang" := "fr" ]} {[ "lang" := "de" ]}
           {[ "theme" := "dark"; "lang" := "en" ]} [("lang", "fr")] [("lang", "de")]).
  - vm_compute; reflexivity.
  - vm_compute; reflexivity.
  - vm_compute; discriminate.
  - vm_compute; discriminate.
  - vm_compute; reflexivity.
  - vm_compute; reflexivity.
Defined.

(** X7. What unmarshalPrefs reads from an item: absent when the item has
    no preferences attribute; an error when the attribute is not a map,
    which GetAll and Get hand on with found unset; otherwise exactly the
    members of the map that are strings, the others being skipped. *)
Theorem unmarshalPrefs_reads_string_members (t : Table) (U : string) (item : Item) :
  t !! pk U = Some item →
  (item !! "preferences" = None → GetAll t U = (None, None))
  ∧ (∀ m, item !! "preferences" = Some (AttributeValueMemberM m) →
       ∃ prefs, GetAll t U = (Some prefs, None)
         ∧ ∀ k v, prefs !! k = Some v ↔ m !! k = Some (AttributeValueMemberS v))
  ∧ (¬ is_map (item !! "preferences") → item !! "preferences" ≠ None →
       GetAll t U = (None, Some "preferences attribute is not a map")
       ∧ ∀ k, Get t U k = ("", false, Some "preferences attribute is not a map")).
Proof.
  intros Ht. rewrite GetAll_lookup, Ht. unfold Get.
  rewrite GetAll_lookup, Ht. unfold unmarshalPrefs. simpl.
  split_and!.
  - by intros ->.
  - intros m ->. eexists. split; [done|].
    intros k v. rewrite lookup_omap.
    destruct (m !! k) as [[]|]; simpl; split; intros; by simplify_eq.
  - intros Hnm Hsome.
    destruct (item !! "preferences") as [[]|]; try done.
    destruct Hnm. by eexists.
Qed.

Lemma unmarshalPrefs_reads_string_members_witness :
  ({[ pk "alice" :=
        {[ "PK" := AttributeValueMemberS (pk "alice");
           "preferences" :=
             AttributeValueMemberM
               {[ "theme" := AttributeValueMemberS "dark";
                  "count" := AttributeValueMemberN "3" ]} ]} ]} : Table)
    !! pk "alice"
  = Some {[ "PK" := AttributeValueMemberS (pk "alice");
            "preferences" :=
              AttributeValueMemberM
                {[ "theme" := AttributeValueMemberS "dark";
                   "count" := AttributeValueMemberN "3" ]} ]}
  ∧ ∃ prefs,
      GetAll ({[ pk "alice" :=
        {[ "PK" := AttributeValueMemberS (pk "alice");
           "preferences" :=
             AttributeValueMemberM
               {[ "theme" := AttributeValueMemberS "dark";
                  "count" := AttributeValueMemberN "3" ]} ]} ]} : Table) "alice"
      = (Some prefs, None)
      ∧ ∀ k v, prefs !! k = Some v ↔
          ({[ "theme" := AttributeValueMemberS "dark";
              "count" := AttributeValueMemberN "3" ]} : Item) !! k
          = Some (AttributeValueMemberS v).
Proof.
  split; [vm_compute; reflexivity|].
  eapply (unmarshalPrefs_reads_string_members _ "alice").
  - vm_compute; reflexivity.
  - vm_compute; reflexivity.
Defined.



(** X9. A user who reads as absent stays absent under Delete and under
    Update: the service rejects the document path of either request, the
    call returns an error and the table is left as it was. *)
Theorem writes_into_absent_set_are_rejected (t : Table) (now U k : string)
    (P : gmap string string) (order : list (string * string)) :
  order ≡ₚ map_to_list P → P ≠ ∅ →
  GetAll t U = (None, None) →
  (∃ e, Delete t U k = (t, Some e))
  ∧ (∃ e, UpdateInOrder t now U order = (t, (None, Some e))).
Proof.
  intros Hperm HP Hget. split.
  - pose proof Hget as Hnone%GetAll_None_inv.
    rewrite Delete_invalid by (rewrite Hnone; by intros [? ?]). eauto.
  - rewrite (UpdateInOrder_absent _ now _ _ _ Hperm HP Hget). eauto.
Qed.

Lemma writes_into_absent_set_are_rejected_witness :
  [("lang", "fr")] ≡ₚ map_to_list ({[ "lang" := "fr" ]} : gmap string string)
  ∧ GetAll alice_table "bob" = (None, None)
  ∧ ∃ e, Delete alice_table "bob" "lang" = (alice_table, Some e).
Proof.
  split_and!; [vm_compute; reflexivity|vm_compute; reflexivity|].
  apply (writes_into_absent_set_are_rejected alice_table "2024-06-01T00:00:00Z"
           "bob" "lang" {[ "lang" := "fr" ]} [("lang", "fr")]).
  - vm_compute; reflexivity.
  - vm_compute; discriminate.
  - vm_compute; reflexivity.
Defined.

End store_extras.

(** * Further properties of the handlers *)

Section handler_extras.
Import PreferencesHandler.

Lemma authorize_inr r U :
  authorize r = inr U →
  PathValue r "userId" = U ∧ U ≠ ""
  ∧ ClaimsFromContext r = Some {| Subject := U |}.
Proof.
  unfold authorize. case_decide as Hne; [done|].
  destruct (ClaimsFromContext r) as [[sub]|]; [|done].
  case_decide as Hsub; [done|]. intros [= <-].
  simpl in Hsub. by subst.
Qed.

Lemma serve_calls {S : Type} `{Store S} (h : Handler) (s : S) now r U :
  authorize r = inr U →
  (calls (serve h s now r) = [] ∨ ∃ c, calls (serve h s now r) = [c] ∧ call_user c = U).
Proof.
  intros Ha.
  destruct h; simpl;
    unfold GetAll, GetOne, ReplaceAll, PatchPrefs, DeleteAll, DeleteOne;
    rewrite Ha;
    repeat (case_match; simpl; eauto).
Qed.

Lemma serve_call_inv {S : Type} `{Store S} (h : Handler) (s : S) now r c :
  c ∈ calls (serve h s now r) →
  calls (serve h s now r) = [c]
  ∧ call_user c = PathValue r "userId"
  ∧ call_user c ≠ ""
  ∧ ClaimsFromContext r = Some {| Subject := call_user c |}.
Proof.
  intros Hc. destruct (authorize r) as [resp|U] eqn:Ha.
  - rewrite (serve_rejected _ _ _ _ _ Ha) in Hc. simpl in Hc.
    by apply not_elem_of_nil in Hc.
  - destruct (authorize_inr _ _ Ha) as (HU & Hne & Hcl).
    destruct (serve_calls h s now r U Ha) as [Hnil|(c' & Hcalls & Huser)].
    + rewrite Hnil in Hc. by apply not_elem_of_nil in Hc.
    + rewrite Hcalls in Hc. apply list_elem_of_singleton in Hc as ->.
      rewrite Huser. by split_and!.
Qed.

(** X10. A handler invokes at most one store operation per request, and
    only for the user named in the path, who is then also the subject of
    the claims in the request context: no request makes a handler read or
    write the preferences of a user other than its authenticated
    subject. *)
Theorem handlers_touch_only_the_subject {S : Type} `{Store S} (h : Handler)
    (s : S) (now : string) (r : Request) (c : StoreCall) :
  c ∈ calls (serve h s now r) →
  calls (serve h s now r) = [c]
  ∧ call_user c = PathValue r "userId"
  ∧ call_user c ≠ ""
  ∧ ClaimsFromContext r = Some {| Subject := call_user c |}.
Proof. apply serve_call_inv. Qed.

Lemma handlers_touch_only_the_subject_witness :
  CallDelete "alice" "theme"
    ∈ calls (serve HDeleteOne alice_table ""
               (withClaims (test_request "alice" "theme" "" None None) "alice"))
  ∧ call_user (CallDelete "alice" "theme")
    = PathValue (withClaims (test_request "alice" "theme" "" None None) "alice")
        "userId".
Proof.
  assert (Hin : CallDelete "alice" "theme"
    ∈ calls (serve HDeleteOne alice_table ""
               (withClaims (test_request "alice" "theme" "" None None) "alice"))).
  { vm_compute. apply list_elem_of_here. }
  split; [exact Hin|].
  apply (handlers_touch_only_the_subject HDeleteOne alice_table ""
           (withClaims (test_request "alice" "theme" "" None None) "alice")
           (CallDelete "alice" "theme") Hin).
Defined.

Lemma fixed_error_writeError code msg :
  msg ∈ handler_messages →
  code ∈ [StatusBadRequest; StatusUnauthorized; StatusForbidden;
          StatusNotFound; StatusInternalServerError] →
  fixed_error (writeError code msg).
Proof. intros Hm Hc msg' code' [= <- <-]. by split_and!. Qed.

Lemma fixed_error_authorize r resp : authorize r = inl resp → fixed_error resp.
Proof.
  unfold authorize. case_decide.
  { intros [= <-]. apply fixed_error_writeError; set_solver. }
  destruct (ClaimsFromContext r); [|intros [= <-];
    apply fixed_error_writeError; set_solver].
  case_decide; [|done]. intros [= <-].
  apply fixed_error_writeError; set_solver.
Qed.

Lemma fixed_error_serve {S : Type} `{Store S} (h : Handler) (s : S) now r :
  fixed_error (response (serve h s now r)).
Proof.
  destruct (authorize r) as [resp|U] eqn:Ha.
  { rewrite (serve_rejected _ _ _ _ _ Ha). by apply fixed_error_authorize in Ha. }
  destruct h; simpl;
    unfold GetAll, GetOne, ReplaceAll, PatchPrefs, DeleteAll, DeleteOne;
    rewrite Ha.
  - destruct (Store_GetAll s U) as [prefs [e|]]; simpl;
      [apply fixed_error_writeError; set_solver|by intros ? ?].
  - case_decide; simpl; [apply fixed_error_writeError; set_solver|].
    destruct (Store_Get s U (PathValue r "key")) as [[v found] [e|]]; simpl;
      [apply fixed_error_writeError; set_solver|].
    destruct found; simpl;
      [by intros ? ?|apply fixed_error_writeError; set_solver].
  - destruct (json.Decode (Body r)) as [prefs|e]; simpl;
      [|apply fixed_error_writeError; set_solver].
    destruct (Store_ReplaceAll s now U prefs) as [s' [e|]]; simpl;
      [apply fixed_error_writeError; set_solver|by intros ? ?].
  - destruct (json.Decode (Body r)) as [prefs|e]; simpl;
      [|apply fixed_error_writeError; set_solver].
    case_decide; simpl; [apply fixed_error_writeError; set_solver|].
    destruct (Store_Update s now U prefs) as [s' [merged [e|]]]; simpl;
      [apply fixed_error_writeError; set_solver|by intros ? ?].
  - destruct (Store_DeleteAll s U) as [s' [e|]]; simpl;
      [apply fixed_error_writeError; set_solver|by intros ? ?].
  - case_decide; simpl; [apply fixed_error_writeError; set_solver|].
    destruct (Store_Delete s U (PathValue r "key")) as [s' [e|]]; simpl;
      [apply fixed_error_writeError; set_solver|by intros ? ?].
Qed.

(** X11. Whatever the store returns, the error responses of the handlers
    carry one of thirteen fixed messages and repeat the status code in
    the body: the text of a store error never reaches the client. *)
Theorem handler_errors_are_fixed_messages {S : Type} `{Store S} (h : Handler)
    (s : S) (now : string) (r : Request) (msg : string) (code : nat) :
  ResponseBody (response (serve h s now r)) = APIError msg code →
  msg ∈ handler_messages
  ∧ code = StatusCode (response (serve h s now r))
  ∧ code ∈ [StatusBadRequest; StatusUnauthorized; StatusForbidden;
            StatusNotFound; StatusInternalServerError].
Proof. apply fixed_error_serve. Qed.

Lemma handler_errors_are_fixed_messages_witness :
  ResponseBody (response (serve HGetOne alice_table ""
     (withClaims (test_request "alice" "font" "" None None) "alice")))
  = APIError "preference not found" 404
  ∧ "preference not found" ∈ handler_messages.
Proof.
  split; [vm_compute; reflexivity|].
  apply (handler_errors_are_fixed_messages HGetOne alice_table ""
           (withClaims (test_request "alice" "font" "" None None) "alice")
           "preference not found" 404).
  vm_compute; reflexivity.
Defined.

(** X12. Behind the authentication middleware, on any path other than
    /healthz, a handler invokes a store operation only for the subject of
    a bearer token that passed every check of the middleware, and that
    subject is the user named in the path; the claims a request brings in
    its own context play no part. *)
Theorem authenticated_calls_are_for_the_token_subject `{jwt.Primitives}
    {S : Type} `{Store S} (secret issuer : string) (clock : Z) (h : Handler)
    (s : S) (now : string) (r : Request) (c : StoreCall) :
  URL_Path r ≠ "/healthz" →
  c ∈ calls (JWTAuth_then_serve secret issuer clock h s now r) →
  ∃ scheme tokenStr,
    Header_Authorization r = scheme +:+ " " +:+ tokenStr
    ∧ strings.EqualFold scheme "Bearer" = true
    ∧ token_ok secret issuer clock tokenStr (call_user c)
    ∧ call_user c = PathValue r "userId".
Proof.
  intros Hpath Hc. unfold JWTAuth_then_serve in Hc.
  destruct (JWTAuth_outcome secret issuer clock r Hpath)
    as [(scheme & tokenStr & sub & Hh & Hfold & Hok & Hnext)|[msg Hresp]].
  - rewrite Hnext in Hc.
    destruct (serve_call_inv _ _ _ _ _ Hc) as (_ & HU & _ & Hcl).
    simpl in Hcl. injection Hcl as Hsub. rewrite <- Hsub.
    exists scheme, tokenStr. split_and!; try done.
    by rewrite <- Hsub in HU.
  - rewrite Hresp in Hc. simpl in Hc. by apply not_elem_of_nil in Hc.
Qed.

Lemma authenticated_calls_are_for_the_token_subject_witness :
  URL_Path (test_request "user1" "" "Bearer valid"
              (Some {| Subject := "mallory" |}) None) ≠ "/healthz"
  ∧ ∃ scheme tokenStr,
      Header_Authorization (test_request "user1" "" "Bearer valid"
                              (Some {| Subject := "mallory" |}) None)
        = scheme +:+ " " +:+ tokenStr
      ∧ strings.EqualFold scheme "Bearer" = true
      ∧ token_ok testSecret "" 5000 tokenStr (call_user (CallGetAll "user1"))
      ∧ call_user (CallGetAll "user1")
        = PathValue (test_request "user1" "" "Bearer valid"
                       (Some {| Subject := "mallory" |}) None) "userId".
Proof.
  split; [vm_compute; discriminate|].
  apply (authenticated_calls_are_for_the_token_subject testSecret "" 5000
           HGetAll alice_table ""
           (test_request "user1" "" "Bearer valid"
              (Some {| Subject := "mallory" |}) None)).
  - vm_compute; discriminate.
  - vm_compute. apply list_elem_of_here.
Defined.

End handler_extras.

(** * The handlers over the DynamoDB store *)

Section http_flows.
Import PreferencesHandler.







End http_flows.

(** * Configuration *)

Section config_extras.
Import config.

Lemma envOrDefault_nonempty env key fallback :
  fallback ≠ "" → envOrDefault env key fallback ≠ "".
Proof. intros Hf. unfold envOrDefault. by case_decide. Qed.


(** X17. parseLogLevel does not depend on the case of its ASCII letters,
    and every word other than debug, warn and error, the empty word and
    info included, gives Info. *)
Theorem parseLogLevel_ignores_case (s s' : string) :
  strings.lower s = strings.lower s' →
  parseLogLevel s = parseLogLevel s'
  ∧ (strings.lower s ∉ ["debug"; "warn"; "error"] → parseLogLevel s = LevelInfo)
  ∧ (parseLogLevel s = LevelDebug ↔ strings.lower s = "debug")
  ∧ (parseLogLevel s = LevelWarn ↔ strings.lower s = "warn")
  ∧ (parseLogLevel s = LevelError ↔ strings.lower s = "error").
Proof.
  intros Heq. unfold parseLogLevel. rewrite <- Heq.
  split; [reflexivity|].
  repeat case_decide; split_and!; try done; try (split; congruence);
    try (intros Hnot; exfalso; apply Hnot; set_solver);
    split; intros Hx; first [discriminate Hx | congruence].
Qed.

Lemma parseLogLevel_ignores_case_witness :
  strings.lower "WARN" = strings.lower "Warn"
  ∧ parseLogLevel "WARN" = parseLogLevel "Warn".
Proof.
  split; [reflexivity|].
  exact (proj1 (parseLogLevel_ignores_case "WARN" "Warn" eq_refl)).
Defined.

End config_extras.

(** * The substring test of the middleware tests *)

Section contains_extras.

Lemma append_cons (c : ascii) (a b : string) :
  String c a +:+ b = String c (a +:+ b).
Proof. reflexivity. Qed.

Lemma append_nil (b : string) : "" +:+ b = b.
Proof. reflexivity. Qed.

Lemma substring_0_app (sub post : string) :
  String.substring 0 (String.length sub) (sub +:+ post) = sub.
Proof.
  induction sub as [|c sub IH].
  - rewrite append_nil. by destruct post.
  - rewrite append_cons. cbn [String.length String.substring]. by rewrite IH.
Qed.

Lemma substring_skip (pre rest : string) (m : nat) :
  String.substring (String.length pre) m (pre +:+ rest) = String.substring 0 m rest.
Proof.
  induction pre as [|c pre IH]; [by rewrite append_nil|].
  rewrite append_cons. cbn [String.length String.substring]. apply IH.
Qed.

Lemma substring_0_inv (sub s : string) :
  String.substring 0 (String.length sub) s = sub → ∃ post, s = sub +:+ post.
Proof.
  revert s. induction sub as [|c sub IH]; intros s.
  - intros _. by exists s.
  - cbn [String.length String.substring].
    destruct s as [|c' s]; [done|]. intros [= -> Hs].
    destruct (IH _ Hs) as [post ->]. by exists post.
Qed.

Lemma substring_inv (i m : nat) (s : string) :
  (i ≤ String.length s)%nat →
  ∃ pre rest, s = pre +:+ rest ∧ String.length pre = i
    ∧ String.substring i m s = String.substring 0 m rest.
Proof.
  revert s. induction i as [|i IH]; intros s Hi.
  - by exists "", s.
  - destruct s as [|c s]; cbn [String.length] in Hi; [lia|].
    destruct (IH s ltac:(lia)) as (pre & rest & -> & Hlen & Hsub).
    exists (String c pre), rest. rewrite append_cons.
    cbn [String.length String.substring]. by rewrite Hlen.
Qed.

Lemma length_app_string (a b : string) :
  String.length (a +:+ b) = (String.length a + String.length b)%nat.
Proof.
  induction a as [|c a IH]; [done|].
  rewrite append_cons. cbn [String.length]. by rewrite IH.
Qed.

Lemma searchString_from_true (s substr : string) (i n : nat) :
  searchString_from s substr i n = true ↔
  ∃ j, (i ≤ j < i + n)%nat
    ∧ String.substring j (String.length substr) s = substr.
Proof.
  revert i. induction n as [|n IH]; intros i; cbn.
  - split; [done|]. intros (j & Hj & _). lia.
  - case_decide as Hm.
    + split; [|done]. intros _. exists i. split; [lia|done].
    + rewrite IH. split.
      * intros (j & Hj & Hs). exists j. split; [lia|done].
      * intros (j & Hj & Hs). exists j. split; [|done].
        destruct (decide (j = i)) as [->|]; [done|lia].
Qed.

Lemma searchString_true (s substr : string) :
  searchString s substr = true ↔ ∃ pre post, s = pre +:+ substr +:+ post.
Proof.
  unfold searchString. rewrite searchString_from_true. split.
  - intros (j & Hj & Hs).
    destruct (substring_inv j (String.length substr) s ltac:(lia))
      as (pre & rest & -> & Hlen & Hsub).
    rewrite Hsub in Hs. apply substring_0_inv in Hs as [post ->].
    by exists pre, post.
  - intros (pre & post & ->). exists (String.length pre).
    rewrite !length_app_string. split; [lia|].
    by rewrite substring_skip, substring_0_app.
Qed.

(** X18. The test helper contains(s, substr) is true exactly when substr
    occurs in s, the empty word occurring in every word; and the length
    test it makes before calling searchString is redundant, searchString
    alone giving the same answer on every pair of words. *)
Theorem contains_is_substring (s substr : string) :
  (contains s substr = true ↔ ∃ pre post, s = pre +:+ substr +:+ post)
  ∧ contains s "" = true
  ∧ searchString s substr = contains s substr.
Proof.
  assert (Hguard : searchString s substr = true →
                   (String.length substr ≤ String.length s)%nat).
  { intros (pre & post & ->)%searchString_true.
    rewrite !length_app_string. lia. }
  assert (Hsame : searchString s substr = contains s substr).
  { unfold contains. destruct (searchString s substr) eqn:Hs.
    - by rewrite bool_decide_eq_true_2 by auto.
    - by rewrite andb_false_r. }
  split; [|split; [|exact Hsame]].
  - rewrite <- Hsame. apply searchString_true.
  - unfold contains. rewrite bool_decide_eq_true_2 by (cbn; lia). cbn.
    apply searchString_true. by exists "", s.
Qed.

End contains_extras.

(** * The in-memory store of the tests against the DynamoDB store *)

Section mock_extras.

Lemma mock_prefs_at_insert (prefs : gmap string GoMap) e U V p :
  mockStore.prefs_at
    {| mockStore.prefs := <[U := p]> prefs; mockStore.err := e |} V
  = if decide (U = V) then p
    else mockStore.prefs_at {| mockStore.prefs := prefs; mockStore.err := e |} V.
Proof.
  unfold mockStore.prefs_at. simpl. case_decide as Huv.
  - subst. by rewrite lookup_insert_eq.
  - by rewrite lookup_insert_ne.
Qed.

Lemma mock_matches_write m t t' U p :
  mock_matches m t →
  DynamoStore.GetAll t' U = (p, None) →
  (∀ V, V ≠ U → t' !! DynamoStore.pk V = t !! DynamoStore.pk V) →
  mock_matches
    {| mockStore.prefs := <[U := p]> (mockStore.prefs m);
       mockStore.err := None |} t'.
Proof.
  intros [Herr Hread] Hget Hframe. split; [reflexivity|].
  intros V. rewrite mock_prefs_at_insert. case_decide as Huv.
  - subst. exact Hget.
  - rewrite (GetAll_frame t t' V); [apply Hread|].
    apply Hframe. congruence.
Qed.



End mock_extras.
